(** * ItemManager: item-set derivation, item materialisation and undoable create

    A shallow embedding of [src/components/ItemManager.tsx].

    - Strings are [string] (byte strings).  The code only concatenates
      strings, compares them for equality, tests them for emptiness and
      splits them at the ASCII character ".", so the byte view agrees with
      the source's view of the same text.
    - A JS object used as a dictionary is the list of its own entries in
      [Object.entries] order; well-formed objects have pairwise distinct
      keys, which is stated as [NoDup] where a theorem needs it.
    - The local array [sets] of the memoised derivation is threaded through
      the two [forEach] loops as explicit state.
    - The handlers run against a world made of the board owner's state
      (abstract, reached only through the props), the arrays of items handed
      to the board owner, the dialog flag and the notifications fired so
      far.  The component never writes to an array it has handed over, but
      whoever holds the array may: the undo of a create reads it when it is
      clicked. *)

From Stdlib Require Import Ascii.
From stdpp Require Import list strings pretty.


(** ** JS values used by the component *)

Definition JsObject (V : Type) : Type := list (string * V).

(** [Object.entries(o)]: the own entries, in iteration order. *)
Definition Object_entries {V} (o : JsObject V) : list (string * V) := o.

(** [o[k]] for an own key.  A name that is no own key yields either
    [undefined] or a member of [Object.prototype]; neither carries an
    [images] array, so both are [None] here. *)
Fixpoint get {V} (o : JsObject V) (k : string) : option V :=
  match o with
  | [] => None
  | (k', v) :: rest => if decide (k' = k) then Some v else get rest k
  end.

(** [arr.push(x)] on an array held in a variable. *)
Definition push {A} (x : A) (arr : list A) : list A := arr ++ [x].

(** [arr.forEach(f)] where the callback updates the state [S]. *)
Definition forEach {A S} (f : A → S → S) (arr : list A) (s : S) : S :=
  fold_left (λ acc a, f a acc) arr s.

(** [s.split(c)] for a one-character separator. *)
Fixpoint split (sep : Ascii.ascii) (s : string) : list string :=
  match s with
  | EmptyString => [EmptyString]
  | String c rest =>
      if decide (c = sep) then EmptyString :: split sep rest
      else match split sep rest with
           | piece :: pieces => String c piece :: pieces
           | [] => [String c EmptyString]
           end
  end.

(** A template literal around an array element: a hole in the array
    ([undefined]) is rendered by its name. *)
Definition template (o : option string) : string := default "undefined" o.

Inductive JsError : Type := TypeError.

Inductive Result (A : Type) : Type :=
| Ok (a : A)
| Throw (e : JsError).
Arguments Ok {A} a.
Arguments Throw {A} e.

Definition bind {A B} (r : Result A) (k : A → Result B) : Result B :=
  match r with
  | Ok a => k a
  | Throw e => Throw e
  end.

Notation "x ←! r ; k" := (bind r (λ x, k))
  (at level 20, r at level 100, k at level 200, right associativity, only parsing).

(** [arr.map((x, index) => ...)] with a callback that may throw: elements are
    visited in order and the first exception aborts the whole map. *)
Fixpoint Array_map_from {A B} (f : A → nat → Result B) (index : nat) (arr : list A)
  : Result (list B) :=
  match arr with
  | [] => Ok []
  | x :: rest =>
      y ←! f x index;
      ys ←! Array_map_from f (S index) rest;
      Ok (y :: ys)
  end.

Definition Array_map {A B} (f : A → nat → Result B) (arr : list A) : Result (list B) :=
  Array_map_from f 0 arr.

(** ** The configuration document ([ImagesetConfig]) *)

Module TagMeta.
Record t : Type := mk { title : string; description : string; category : string }.
End TagMeta.

Module Image.
Record t : Type := mk { filename : string; label : string; tags : list string }.
End Image.

Module Package.
Record t : Type := mk {
  displayName : string;
  images : list Image.t;
  tags : JsObject TagMeta.t
}.
End Package.

Record ImagesetConfig : Type := { packages : JsObject Package.t }.

(** ** Derived and created values *)

Module ItemSet.
Record t : Type := mk {
  packageName : string;
  packageDisplayName : string;
  tagName : string;
  tagTitle : string;
  images : list string
}.
End ItemSet.

Module Item.
Record t : Type := mk {
  id : string;
  content : string;
  imageUrl : string;
  tags : list string
}.
End Item.

(** The arrays of items that were handed to the board owner, each with its
    present contents; a reference to such an array is its position. *)
Abbreviation Arrays := (list (list Item.t)).

(** A notification as handed to [toast]: title, description and one action.
    The action runs when it is clicked, on the arrays and the board as they
    are then. *)
Module Toast.
Record t (Board : Type) : Type := mk {
  title : string;
  description : string;
  action_label : string;
  action_onClick : Arrays → Board → Board
}.
Arguments mk {Board}.
Arguments title {Board}.
Arguments description {Board}.
Arguments action_label {Board}.
Arguments action_onClick {Board}.
End Toast.

(** ** The derivation [itemSets] *)

Section Derivation.
Variable typedImagesetConfig : ImagesetConfig.

(** [packageData.images.filter(image => image.tags.includes(tagName))] *)
Definition taggedImages (packageData : Package.t) (tagName : string) : list Image.t :=
  filter (λ image, tagName ∈ Image.tags image) (Package.images packageData).

(** Body of the inner [forEach] over the package's tag map. *)
Definition tagBody (packageName : string) (packageData : Package.t)
    (entry : string * TagMeta.t) (sets : list ItemSet.t) : list ItemSet.t :=
  let '(tagName, tagData) := entry in
  let packageDisplayName := Package.displayName packageData in
  let tagged := taggedImages packageData tagName in
  if decide (0 < length tagged) then
    push (ItemSet.mk packageName packageDisplayName tagName
            (TagMeta.title tagData) (Image.filename <$> tagged)) sets
  else sets.

(** Body of the outer [forEach] over the packages. *)
Definition packageBody (entry : string * Package.t) (sets : list ItemSet.t)
  : list ItemSet.t :=
  let '(packageName, packageData) := entry in
  let packageDisplayName := Package.displayName packageData in
  let sets :=
    push (ItemSet.mk packageName packageDisplayName "all" "All Items"
            (Image.filename <$> Package.images packageData)) sets in
  forEach (tagBody packageName packageData)
    (Object_entries (Package.tags packageData)) sets.

Definition itemSets : list ItemSet.t :=
  forEach packageBody (Object_entries (packages typedImagesetConfig)) [].
End Derivation.

(** ** The derivation with its array among other arrays

    [const sets: ItemSet[] = []] makes a new array, the loops push to it and
    the function returns it.  Here the array lives among the arrays that
    exist when the computation starts, those returned by earlier
    computations included. *)

Abbreviation SetArrays := (list (list ItemSet.t)).




(** ** The derivation as the specification words it

    The "all" set of a package, the set of one tag, and the catalog of
    selectable groups as the concatenation, package by package, of the "all"
    set followed by the sets of the tags carried by at least one image. *)

Definition allItemSet (p : string) (d : Package.t) : ItemSet.t :=
  ItemSet.mk p (Package.displayName d) "all" "All Items"
    (Image.filename <$> Package.images d).

Definition tagItemSet (p : string) (d : Package.t) (entry : string * TagMeta.t)
  : ItemSet.t :=
  ItemSet.mk p (Package.displayName d) entry.1 (TagMeta.title entry.2)
    (Image.filename <$> filter (λ img, entry.1 ∈ Image.tags img) (Package.images d)).

Definition carried (d : Package.t) (t : string) : Prop :=
  Exists (λ img, t ∈ Image.tags img) (Package.images d).

Definition packageBlock (entry : string * Package.t) : list ItemSet.t :=
  allItemSet entry.1 entry.2
    :: (tagItemSet entry.1 entry.2
          <$> filter (λ e, carried entry.2 e.1) (Package.tags entry.2)).

Definition derive_spec (config : ImagesetConfig) : list ItemSet.t :=
  mjoin (packageBlock <$> packages config).

(** ** The handlers *)

Module World.
Record t (Board : Type) : Type := mk {
  board : Board;
  arrays : Arrays;
  isItemCreatorOpen : bool;
  toasts : list (Toast.t Board)
}.
Arguments mk {Board}.
Arguments board {Board}.
Arguments arrays {Board}.
Arguments isItemCreatorOpen {Board}.
Arguments toasts {Board}.
End World.

(** [a || b] on a possibly missing string: the empty string and [undefined]
    are the falsy ones. *)
Definition or_string (a : option string) (b : string) : string :=
  match a with
  | Some s => if decide (s = EmptyString) then b else s
  | None => b
  end.

(** [a || b] on a possibly missing array: every array is truthy. *)
Definition or_array {A} (a : option (list A)) (b : list A) : list A :=
  match a with
  | Some l => l
  | None => b
  end.

Section Handlers.
Context {Board : Type}.
Variable typedImagesetConfig : ImagesetConfig.
Variable onItemsCreate : list Item.t → Board → Board.
Variable onUndoItemsCreate : list string → Board → Board.

Definition setIsItemCreatorOpen (open : bool) (w : World.t Board) : World.t Board :=
  World.mk (World.board w) (World.arrays w) open (World.toasts w).

Definition toast (title description action_label : string)
    (onClick : Arrays → Board → Board) (w : World.t Board) : World.t Board :=
  World.mk (World.board w) (World.arrays w) (World.isItemCreatorOpen w)
    (World.toasts w ++ [Toast.mk title description action_label onClick]).

(** [newItems] is what the array holds when the handler is called.  The call
    of [onItemsCreate] hands the array to the board owner: from then on it is
    an array of the world, at the reference [ref].  The description is built
    at once; [onClick] keeps the array, not its ids, and maps it when the
    action is clicked. *)
Definition handleCreateItems (newItems : list Item.t) (w : World.t Board)
  : World.t Board :=
  let ref := length (World.arrays w) in
  let w := World.mk (onItemsCreate newItems (World.board w))
             (World.arrays w ++ [newItems])
             (World.isItemCreatorOpen w) (World.toasts w) in
  let w := setIsItemCreatorOpen false w in
  toast "Items Added"
    (pretty (length newItems) +:+ " item(s) have been added.")
    "Undo"
    (λ arrays b, onUndoItemsCreate (Item.id <$> default [] (arrays !! ref)) b)
    w.

(** The callback of [images.map] in [handleItemSetSelect]; reading
    [packageData.images] of a missing package throws. *)
Definition newItem (packageName tagName : string) (packageData : option Package.t)
    (image : string) (index : nat) : Result Item.t :=
  match packageData with
  | None => Throw TypeError
  | Some packageData =>
      let imageData :=
        List.find (λ img, bool_decide (Image.filename img = image))
          (Package.images packageData) in
      Ok (Item.mk
            (packageName +:+ "-" +:+ tagName +:+ "-item-" +:+ pretty index)
            (or_string (Image.label <$> imageData)
               (template (split "."%char image !! 0)))
            ("/images/" +:+ packageName +:+ "/" +:+ image)
            (or_array (Image.tags <$> imageData) []))
  end.

Definition newItems (packageName tagName : string) (images : list string)
  : Result (list Item.t) :=
  let packageData := get (packages typedImagesetConfig) packageName in
  Array_map (newItem packageName tagName packageData) images.

Definition handleItemSetSelect (packageName tagName : string) (images : list string)
    (w : World.t Board) : Result (World.t Board) :=
  items ←! newItems packageName tagName images;
  Ok (handleCreateItems items w).
End Handlers.

(** ** Sample catalogs *)

Definition animalsPackage : Package.t :=
  Package.mk "Animals"
    [Image.mk "cat.png" "Cat" ["mammal"]; Image.mk "fish.png" "Fish" []]
    [("mammal", TagMeta.mk "Mammals" "Warm-blooded" "class")].

Definition animals : ImagesetConfig :=
  {| packages := [("animals", animalsPackage)] |}.

(** A package whose tag map uses the key "all", carried by its image. *)
Definition reservedKey : ImagesetConfig :=
  {| packages :=
       [("p",
         Package.mk "P"
           [Image.mk "a.png" "A" ["all"]]
           [("all", TagMeta.mk "Everything" "Every image" "misc")])] |}.

(** A package whose tag map uses the key "all", carried by no image. *)
Definition reservedKeyUnused : ImagesetConfig :=
  {| packages :=
       [("p",
         Package.mk "P"
           [Image.mk "a.png" "A" []]
           [("all", TagMeta.mk "Everything" "Every image" "misc")])] |}.

(** Predicates used to state the properties. *)

(** [r] is what [find] by filename yields: the first entry named [f], if any. *)
Definition firstMatch (imgs : list Image.t) (f : string) (r : option Image.t) : Prop :=
  match r with
  | Some img =>
      ∃ pre post, imgs = pre ++ img :: post ∧ Image.filename img = f
                  ∧ Forall (λ x, Image.filename x ≠ f) pre
  | None => Forall (λ x, Image.filename x ≠ f) imgs
  end.

(** [stem] is the text of [s] before its first ".", all of [s] if it has none. *)
Definition beforeFirstDot (s stem : string) : Prop :=
  ("."%char ∉ String.list_ascii_of_string stem)
  ∧ (s = stem ∨ ∃ rest, s = stem +:+ "." +:+ rest).

(** ** The remaining handlers and the wiring of the menu *)

Section Menu.
Context {Board : Type}.
Variable typedImagesetConfig : ImagesetConfig.
Variable onItemsCreate : list Item.t → Board → Board.
Variable onUndoItemsCreate : list string → Board → Board.
Variable resetItems : Board → Board.
Variable deleteAllItems : Board → Board.
Variable undoReset : Board → Board.
Variable undoDelete : Board → Board.

Definition handleReset (w : World.t Board) : World.t Board :=
  let w := World.mk (resetItems (World.board w)) (World.arrays w)
             (World.isItemCreatorOpen w) (World.toasts w) in
  toast "Items Reset" "All item rankings have been reset." "Undo"
    (λ _ b, undoReset b) w.

Definition handleDelete (w : World.t Board) : World.t Board :=
  let w := World.mk (deleteAllItems (World.board w)) (World.arrays w)
             (World.isItemCreatorOpen w) (World.toasts w) in
  toast "All Items Deleted" "All items have been removed." "Undo"
    (λ _ b, undoDelete b) w.

(** What can happen to the rendered component: the callbacks its JSX hands
    to the menu entries, to [ItemSetSelector], to the [Dialog], to
    [ItemCreator] and, through [toast], to the notification's action; and,
    outside the component, a write to an array it has handed over (items
    pushed, removed or edited in place by whoever holds the array). *)
Inductive Event : Type :=
| ItemSetSelected (packageName tagName : string) (images : list string)
| FromYourDevice
| ResetSelected
| RemoveAllSelected
| RemoveAllCancelled
| RemoveAllConfirmed
| DialogOpenChange (open : bool)
| ItemsCreated (newItems : list Item.t)
| ItemCreatorUndo (itemIds : list string)
| ToastActionClicked (n : nat)
| ArrayWritten (ref : nat) (contents : list Item.t).

(** The handler the JSX attaches to each event.  "Remove All" only keeps the
    menu from closing and the cancel button has no handler of the component;
    the action of a notification runs the [onClick] it was fired with. *)
Definition dispatch (e : Event) (w : World.t Board) : Result (World.t Board) :=
  match e with
  | ItemSetSelected packageName tagName images =>
      handleItemSetSelect typedImagesetConfig onItemsCreate onUndoItemsCreate
        packageName tagName images w
  | FromYourDevice => Ok (setIsItemCreatorOpen true w)
  | ResetSelected => Ok (handleReset w)
  | RemoveAllSelected => Ok w
  | RemoveAllCancelled => Ok w
  | RemoveAllConfirmed => Ok (handleDelete w)
  | DialogOpenChange open => Ok (setIsItemCreatorOpen open w)
  | ItemsCreated newItems =>
      Ok (handleCreateItems onItemsCreate onUndoItemsCreate newItems w)
  | ItemCreatorUndo itemIds =>
      Ok (World.mk (onUndoItemsCreate itemIds (World.board w)) (World.arrays w)
            (World.isItemCreatorOpen w) (World.toasts w))
  | ToastActionClicked n =>
      match World.toasts w !! n with
      | Some t =>
          Ok (World.mk (Toast.action_onClick t (World.arrays w) (World.board w))
                (World.arrays w) (World.isItemCreatorOpen w) (World.toasts w))
      | None => Ok w
      end
  | ArrayWritten ref contents =>
      Ok (World.mk (World.board w) (<[ref := contents]> (World.arrays w))
            (World.isItemCreatorOpen w) (World.toasts w))
  end.

(** Events handled one after the other; an exception ends the run. *)
Fixpoint dispatchAll (es : list Event) (w : World.t Board) : Result (World.t Board) :=
  match es with
  | [] => Ok w
  | e :: rest => w' ←! dispatch e w; dispatchAll rest w'
  end.

(** Events handled one after the other by the mounted component.  The
    component catches nothing: a handler that throws ends that event only.
    The one handler that can throw does so before its first effect, so the
    next event finds the world as it was. *)
Fixpoint handleAll (es : list Event) (w : World.t Board) : World.t Board :=
  match es with
  | [] => w
  | e :: rest =>
      match dispatch e w with
      | Ok w' => handleAll rest w'
      | Throw _ => handleAll rest w
      end
  end.
End Menu.

(** The events that write to the array at [ref]. *)
Definition writesTo (ref : nat) (e : Event) : bool :=
  match e with
  | ArrayWritten ref' _ => bool_decide (ref' = ref)
  | _ => false
  end.

(** The events whose handler fires a notification. *)
Definition notifies (e : Event) : bool :=
  match e with
  | ItemSetSelected _ _ _ | ResetSelected | RemoveAllConfirmed | ItemsCreated _ => true
  | _ => false
  end.

(** The ids [packageName-tagName-item-0] ... [packageName-tagName-item-(n-1)]. *)
Definition itemIds (packageName tagName : string) (n : nat) : list string :=
  (λ index, packageName +:+ "-" +:+ tagName +:+ "-item-" +:+ pretty index) <$> seq 0 n.

(** ** A board owner that records the calls it receives *)

Inductive Call : Type :=
| CallOnItemsCreate (newItems : list Item.t)
| CallOnUndoItemsCreate (itemIds : list string)
| CallResetItems
| CallDeleteAllItems
| CallUndoReset
| CallUndoDelete.

Definition record (c : Call) (log : list Call) : list Call := log ++ [c].

Definition dispatchRecorded (config : ImagesetConfig) (es : list Event)
    (w : World.t (list Call)) : Result (World.t (list Call)) :=
  dispatchAll config
    (λ newItems, record (CallOnItemsCreate newItems))
    (λ ids, record (CallOnUndoItemsCreate ids))
    (record CallResetItems) (record CallDeleteAllItems)
    (record CallUndoReset) (record CallUndoDelete)
    es w.

Definition handleAllRecorded (config : ImagesetConfig) (es : list Event)
    (w : World.t (list Call)) : World.t (list Call) :=
  handleAll config
    (λ newItems, record (CallOnItemsCreate newItems))
    (λ ids, record (CallOnUndoItemsCreate ids))
    (record CallResetItems) (record CallDeleteAllItems)
    (record CallUndoReset) (record CallUndoDelete)
    es w.

Definition isDeleteAll (c : Call) : bool :=
  match c with
  | CallDeleteAllItems => true
  | _ => false
  end.

Definition isConfirm (e : Event) : bool :=
  match e with
  | RemoveAllConfirmed => true
  | _ => false
  end.

(** An action that makes no call of the delete-all entry point, whatever the
    arrays hold when it is clicked. *)
Definition spares (n : Toast.t (list Call)) : Prop :=
  ∀ arrays log,
    filter (λ c, Is_true (isDeleteAll c)) (Toast.action_onClick n arrays log)
    = filter (λ c, Is_true (isDeleteAll c)) log.

Definition isClick (e : Event) : bool :=
  match e with
  | ToastActionClicked _ => true
  | _ => false
  end.

(** The call an event makes on the board owner by itself, that is, apart
    from what the action of a clicked notification does. *)
Definition callOf (config : ImagesetConfig) (e : Event) : option Call :=
  match e with
  | ItemSetSelected packageName tagName images =>
      match newItems config packageName tagName images with
      | Ok items => Some (CallOnItemsCreate items)
      | Throw _ => None
      end
  | ItemsCreated items => Some (CallOnItemsCreate items)
  | ItemCreatorUndo ids => Some (CallOnUndoItemsCreate ids)
  | ResetSelected => Some CallResetItems
  | RemoveAllConfirmed => Some CallDeleteAllItems
  | _ => None
  end.

(** A catalog with a package whose name contains the id separator. *)
Definition dashed : ImagesetConfig :=
  {| packages :=
       [("a-b", Package.mk "AB" [Image.mk "x.png" "X" []] []);
        ("a", Package.mk "A" [Image.mk "y.png" "Y" []] [])] |}.

(** A package without images whose tag map is not empty. *)
Definition emptyPackage : ImagesetConfig :=
  {| packages := [("void", Package.mk "Void" [] [("t", TagMeta.mk "T" "d" "c")])] |}.

(** A package whose image carries a tag that its tag map does not define. *)
Definition undefinedTag : ImagesetConfig :=
  {| packages :=
       [("zoo", Package.mk "Zoo" [Image.mk "owl.png" "Owl" ["bird"]] [])] |}.

(** * Properties *)

(** Closes a decidable goal about concrete data by evaluating its decision
    procedure. *)
Ltac by_compute :=
  lazymatch goal with
  | |- ¬ ?P => apply (bool_decide_eq_false_1 P)
  | |- ?P → False => apply (bool_decide_eq_false_1 P)
  | |- ?P => apply (bool_decide_eq_true_1 P)
  end; vm_compute; reflexivity.

(** ** The loops and the catalog of groups *)

Lemma taggedImages_carried (d : Package.t) (t : string) :
  0 < length (taggedImages d t) ↔ carried d t.
Proof.
  unfold taggedImages, carried. rewrite Exists_exists. split.
  - intros Hlen.
    destruct (filter (λ image, t ∈ Image.tags image) (Package.images d))
      as [|img l] eqn:Hf; [simpl in Hlen; lia|].
    assert (Hin : img ∈ filter (λ image, t ∈ Image.tags image) (Package.images d))
      by (rewrite Hf; left).
    apply list_elem_of_filter in Hin as [Ht Himg]. eauto.
  - intros (img & Himg & Ht).
    assert (Hin : img ∈ filter (λ image, t ∈ Image.tags image) (Package.images d))
      by (apply list_elem_of_filter; auto).
    destruct (filter _ _); [by apply elem_of_nil in Hin | simpl; lia].
Qed.

Lemma forEach_tagBody (p : string) (d : Package.t) (ts : list (string * TagMeta.t))
    (sets : list ItemSet.t) :
  forEach (tagBody p d) ts sets
  = sets ++ (tagItemSet p d <$> filter (λ e, carried d e.1) ts).
Proof.
  revert sets. induction ts as [|[t td] ts IH]; intros sets.
  - simpl. by rewrite app_nil_r.
  - unfold forEach in *. simpl. rewrite IH. rewrite filter_cons. simpl.
    destruct (decide (0 < length (taggedImages d t))) as [Hlen|Hlen];
      destruct (decide (carried d t)) as [Hc|Hc].
    + unfold push. rewrite <- app_assoc. reflexivity.
    + by apply taggedImages_carried in Hlen.
    + by apply taggedImages_carried in Hc.
    + reflexivity.
Qed.

Lemma forEach_packageBody (ps : list (string * Package.t)) (sets : list ItemSet.t) :
  forEach packageBody ps sets = sets ++ mjoin (packageBlock <$> ps).
Proof.
  revert sets. induction ps as [|[p d] ps IH]; intros sets.
  - simpl. by rewrite app_nil_r.
  - unfold forEach in *. simpl. rewrite IH.
    fold (forEach (tagBody p d)). unfold Object_entries.
    rewrite forEach_tagBody. unfold push, packageBlock. simpl.
    rewrite <- !app_assoc. reflexivity.
Qed.

Lemma itemSets_blocks (config : ImagesetConfig) :
  itemSets config = mjoin (packageBlock <$> packages config).
Proof. unfold itemSets. by rewrite forEach_packageBody. Qed.

(** Every set of a package's block carries the package's name and display
    name. *)
Lemma packageBlock_names (e : string * Package.t) :
  Forall (λ s, ItemSet.packageName s = e.1
               ∧ ItemSet.packageDisplayName s = Package.displayName e.2)
    (packageBlock e).
Proof.
  unfold packageBlock. constructor; [done|].
  apply Forall_fmap, Forall_forall. by intros.
Qed.

Lemma filter_all {A} (P : A → Prop) `{!∀ x, Decision (P x)} (l : list A) :
  Forall P l → filter P l = l.
Proof.
  induction 1 as [|x l Hx _ IH]; [done|].
  rewrite filter_cons. rewrite decide_True by done. by rewrite IH.
Qed.

Lemma filter_none {A} (P : A → Prop) `{!∀ x, Decision (P x)} (l : list A) :
  Forall (λ x, ¬ P x) l → filter P l = [].
Proof.
  induction 1 as [|x l Hx _ IH]; [done|].
  rewrite filter_cons. by rewrite decide_False.
Qed.

Lemma filter_ext_Forall {A} (P Q : A → Prop)
    `{!∀ x, Decision (P x)} `{!∀ x, Decision (Q x)} (l : list A) :
  Forall (λ x, P x ↔ Q x) l → filter P l = filter Q l.
Proof.
  induction 1 as [|x l Hx _ IH]; [done|].
  rewrite !filter_cons, IH. by repeat case_decide; try tauto.
Qed.

(** With pairwise distinct package names, the sets emitted under a package's
    name are those of its block, in the block's order. *)
Lemma filter_package (ps : list (string * Package.t)) (p : string) (d : Package.t) :
  NoDup ps.*1 → (p, d) ∈ ps →
  filter (λ s, ItemSet.packageName s = p) (mjoin (packageBlock <$> ps))
  = packageBlock (p, d).
Proof.
  induction ps as [|[q dq] ps IH]; intros Hnd Hin.
  - by apply elem_of_nil in Hin.
  - rewrite !fmap_cons in *. apply NoDup_cons in Hnd as [Hq Hnd].
    change (mjoin (packageBlock (q, dq) :: (packageBlock <$> ps)))
      with (packageBlock (q, dq) ++ mjoin (packageBlock <$> ps)).
    simpl in Hq. rewrite filter_app.
    apply elem_of_cons in Hin as [Heq|Hin].
    + inversion Heq; subst q dq.
      rewrite filter_all; last first.
      { eapply Forall_impl; [apply packageBlock_names|]. by intros s [? _]. }
      rewrite filter_none; [by rewrite app_nil_r|].
      apply Forall_forall. intros s Hs.
      apply list_elem_of_join in Hs as (blk & Hs & Hblk).
      apply list_elem_of_fmap in Hblk as ([q dq] & -> & He).
      pose proof (packageBlock_names (q, dq)) as Hn.
      rewrite Forall_forall in Hn. destruct (Hn s Hs) as [-> _]. simpl.
      intros ->. apply Hq. apply list_elem_of_fmap. by exists (p, dq).
    + rewrite filter_none; [by simpl; apply IH|].
      eapply Forall_impl; [apply packageBlock_names|].
      intros s [-> _]. simpl. intros ->.
      apply Hq. apply list_elem_of_fmap. by exists (p, d).
Qed.

Lemma itemSets_of_package (config : ImagesetConfig) (p : string) (d : Package.t) :
  NoDup (packages config).*1 → (p, d) ∈ packages config →
  filter (λ s, ItemSet.packageName s = p) (itemSets config) = packageBlock (p, d).
Proof. intros. rewrite itemSets_blocks. by apply filter_package. Qed.

Lemma elem_of_itemSets_package (config : ImagesetConfig) (p : string) (d : Package.t)
    (s : ItemSet.t) :
  NoDup (packages config).*1 → (p, d) ∈ packages config →
  s ∈ itemSets config ∧ ItemSet.packageName s = p ↔ s ∈ packageBlock (p, d).
Proof.
  intros Hnd Hin. rewrite <- (itemSets_of_package config p d Hnd Hin).
  rewrite list_elem_of_filter. tauto.
Qed.

Lemma elem_of_packageBlock (p : string) (d : Package.t) (s : ItemSet.t) :
  s ∈ packageBlock (p, d) ↔
  s = allItemSet p d
  ∨ ∃ e, e ∈ Package.tags d ∧ carried d e.1 ∧ s = tagItemSet p d e.
Proof.
  unfold packageBlock. simpl. rewrite elem_of_cons, list_elem_of_fmap.
  split; (intros [?|(e & H1 & H2)]; [by left|right; exists e]).
  - apply list_elem_of_filter in H2. tauto.
  - destruct H2 as [? ->]. split; [done|]. by apply list_elem_of_filter.
Qed.

(** C7: the derivation output lists the packages in catalog iteration order
    and, within each package, the "all" ItemSet first, followed by the sets
    of the carried tags in the order of the package's tag map. *)
Theorem itemSets_order (config : ImagesetConfig) :
  itemSets config = derive_spec config.
Proof. apply itemSets_blocks. Qed.




(** C10 (amended): for every package, the first ItemSet emitted under its
    name is the "all" ItemSet, whose tagTitle is the constant "All Items"
    whatever the tag metadata says, and every ItemSet emitted under that
    name carries the package's displayName as packageDisplayName; every
    ItemSet of the package with tagName "all" has the tagTitle "All Items"
    unless the package's tag map has itself a key "all" that some image
    carries. *)
Theorem itemSets_titles (config : ImagesetConfig) (p : string) (d : Package.t) :
  NoDup (packages config).*1 → (p, d) ∈ packages config →
  (∃ rest,
     filter (λ s, ItemSet.packageName s = p) (itemSets config)
     = ItemSet.mk p (Package.displayName d) "all" "All Items"
         (Image.filename <$> Package.images d) :: rest
     ∧ Forall (λ s, ItemSet.packageDisplayName s = Package.displayName d) rest)
  ∧ (¬ ("all" ∈ (Package.tags d).*1 ∧ carried d "all") →
     ∀ s, s ∈ itemSets config → ItemSet.packageName s = p →
          ItemSet.tagName s = "all" → ItemSet.tagTitle s = "All Items").
Proof.
  intros Hnd Hin. split.
  - rewrite (itemSets_of_package config p d Hnd Hin).
    eexists. split; [reflexivity|].
    pose proof (packageBlock_names (p, d)) as Hn. unfold packageBlock in Hn.
    apply Forall_cons in Hn as [_ Hn].
    eapply Forall_impl; [exact Hn|]. by intros s [_ ?].
  - intros Hno s Hs Hp Hall.
    assert (Hb : s ∈ packageBlock (p, d))
      by (by apply (elem_of_itemSets_package config p d s Hnd Hin)).
    apply elem_of_packageBlock in Hb as [->|([t td] & Ht & Hc & ->)]; [done|].
    simpl in *. subst t. destruct Hno. split; [|done].
    apply list_elem_of_fmap. by exists ("all", td).
Qed.

Lemma animals_wf : NoDup (packages animals).*1.
Proof. apply NoDup_singleton. Qed.

Lemma animals_package : ("animals", animalsPackage) ∈ packages animals.
Proof. left. Qed.

Lemma itemSets_titles_witness :
  (∃ rest,
     filter (λ s, ItemSet.packageName s = "animals") (itemSets animals)
     = ItemSet.mk "animals" "Animals" "all" "All Items" ["cat.png"; "fish.png"] :: rest
     ∧ Forall (λ s, ItemSet.packageDisplayName s = "Animals") rest)
  ∧ (∀ s, s ∈ itemSets animals → ItemSet.packageName s = "animals" →
          ItemSet.tagName s = "all" → ItemSet.tagTitle s = "All Items").
Proof.
  destruct (itemSets_titles animals "animals" animalsPackage animals_wf animals_package)
    as [Hhead Hall].
  split; [exact Hhead|]. apply Hall.
  intros [_ Hc]. revert Hc. by_compute.
Defined.

(** C10 fails as stated, read by tagName: in a package whose tag map has the
    key "all", carried by an image, an ItemSet with tagName "all" has the
    title of that tag, not "All Items". *)
Lemma itemSets_titles_counterexample :
  NoDup (packages reservedKey).*1
  ∧ ItemSet.mk "p" "P" "all" "Everything" ["a.png"] ∈ itemSets reservedKey
  ∧ ItemSet.tagTitle (ItemSet.mk "p" "P" "all" "Everything" ["a.png"]) ≠ "All Items".
Proof.
  split; [apply NoDup_singleton|]. split; [|done].
  apply list_elem_of_In. vm_compute. right. by left.
Qed.

(** C1 (amended): for every package of the catalog, the ItemSets emitted
    under its name with tagName "all" begin with the "all" ItemSet, whose
    images are the package's full filename list in original order (empty for
    a package without images); it is the only one exactly when the package's
    tag map has no key "all" that some image carries. *)
Theorem itemSets_all (config : ImagesetConfig) (p : string) (d : Package.t) :
  NoDup (packages config).*1 → (p, d) ∈ packages config →
  ∃ extra,
    filter (λ s, ItemSet.packageName s = p ∧ ItemSet.tagName s = "all")
      (itemSets config)
    = ItemSet.mk p (Package.displayName d) "all" "All Items"
        (Image.filename <$> Package.images d) :: extra
    ∧ (extra = [] ↔ ¬ ("all" ∈ (Package.tags d).*1 ∧ carried d "all")).
Proof.
  intros Hnd Hin.
  exists (filter (λ s, ItemSet.tagName s = "all")
            (tagItemSet p d <$> filter (λ e, carried d e.1) (Package.tags d))).
  split.
  - rewrite <- (list_filter_filter_l
                  (λ s, ItemSet.packageName s = p ∧ ItemSet.tagName s = "all")
                  (λ s, ItemSet.packageName s = p)) by tauto.
    rewrite (itemSets_of_package config p d Hnd Hin).
    unfold packageBlock. simpl. rewrite filter_cons. simpl.
    rewrite decide_True by done. f_equal.
    apply filter_ext_Forall.
    pose proof (packageBlock_names (p, d)) as Hn. unfold packageBlock in Hn.
    apply Forall_cons in Hn as [_ Hn].
    eapply Forall_impl; [exact Hn|]. simpl. tauto.
  - split.
    + intros Hextra [Hkey Hc].
      apply list_elem_of_fmap in Hkey as ([t td] & Ht & Hin'). simpl in Ht. subst t.
      assert (Hmem : tagItemSet p d ("all", td)
                     ∈ filter (λ s, ItemSet.tagName s = "all")
                         (tagItemSet p d <$> filter (λ e, carried d e.1) (Package.tags d))).
      { apply list_elem_of_filter. split; [done|].
        apply list_elem_of_fmap_2. by apply list_elem_of_filter. }
      rewrite Hextra in Hmem. by apply elem_of_nil in Hmem.
    + intros Hno. apply filter_none, Forall_fmap, Forall_forall.
      intros [t td] Ht. simpl. intros ->. apply Hno.
      apply list_elem_of_filter in Ht as [Hc Ht]. split; [|done].
      apply list_elem_of_fmap. by exists ("all", td).
Qed.

Lemma itemSets_all_witness :
  filter (λ s, ItemSet.packageName s = "animals" ∧ ItemSet.tagName s = "all")
    (itemSets animals)
  = [ItemSet.mk "animals" "Animals" "all" "All Items" ["cat.png"; "fish.png"]].
Proof.
  destruct (itemSets_all animals "animals" animalsPackage animals_wf animals_package)
    as (extra & Heq & Hextra).
  rewrite Heq. rewrite (proj2 Hextra); [reflexivity|].
  intros [_ Hc]. revert Hc. by_compute.
Defined.

(** C1 fails as stated: a package whose tag map has the key "all", carried
    by an image, gets two ItemSets with tagName "all". *)
Lemma itemSets_all_counterexample :
  NoDup (packages reservedKey).*1
  ∧ filter (λ s, ItemSet.packageName s = "p" ∧ ItemSet.tagName s = "all")
      (itemSets reservedKey)
    = [ItemSet.mk "p" "P" "all" "All Items" ["a.png"];
       ItemSet.mk "p" "P" "all" "Everything" ["a.png"]]
  ∧ length (filter (λ s, ItemSet.packageName s = "p" ∧ ItemSet.tagName s = "all")
              (itemSets reservedKey)) ≠ 1.
Proof.
  split; [apply NoDup_singleton|]. split; [reflexivity|]. vm_compute. lia.
Qed.

(** C2 (amended): for every package P and every tag T of P's tag map other
    than the name "all", an ItemSet with P's name and tagName T is emitted
    iff at least one image of P carries T, and the images of any such
    ItemSet are the filenames of P's images carrying T, in P's image
    order. *)
Theorem itemSets_tag (config : ImagesetConfig) (p : string) (d : Package.t)
    (t : string) (td : TagMeta.t) :
  NoDup (packages config).*1 → (p, d) ∈ packages config →
  (t, td) ∈ Package.tags d → t ≠ "all" →
  ((∃ s, s ∈ itemSets config ∧ ItemSet.packageName s = p ∧ ItemSet.tagName s = t)
   ↔ Exists (λ img, t ∈ Image.tags img) (Package.images d))
  ∧ (∀ s, s ∈ itemSets config → ItemSet.packageName s = p → ItemSet.tagName s = t →
       ItemSet.images s
       = Image.filename <$> filter (λ img, t ∈ Image.tags img) (Package.images d)).
Proof.
  intros Hnd Hin Ht Hne.
  assert (Hblock : ∀ s, s ∈ itemSets config → ItemSet.packageName s = p →
            ItemSet.tagName s = t →
            ∃ e, e.1 = t ∧ carried d t ∧ s = tagItemSet p d e).
  { intros s Hs Hp Hname.
    assert (Hb : s ∈ packageBlock (p, d))
      by (by apply (elem_of_itemSets_package config p d s Hnd Hin)).
    apply elem_of_packageBlock in Hb as [->|(e & _ & Hc & ->)].
    - simpl in Hname. congruence.
    - simpl in Hname. subst t. eauto. }
  split; [split|].
  - intros (s & Hs & Hp & Hname).
    by destruct (Hblock s Hs Hp Hname) as (_ & _ & Hc & _).
  - intros Hc. exists (tagItemSet p d (t, td)).
    assert (Hb : tagItemSet p d (t, td) ∈ packageBlock (p, d)).
    { apply elem_of_packageBlock. right. by exists (t, td). }
    apply (elem_of_itemSets_package config p d _ Hnd Hin) in Hb as [Hs Hp].
    done.
  - intros s Hs Hp Hname.
    by destruct (Hblock s Hs Hp Hname) as (e & <- & _ & ->).
Qed.

Lemma itemSets_tag_witness :
  ((∃ s, s ∈ itemSets animals ∧ ItemSet.packageName s = "animals"
         ∧ ItemSet.tagName s = "mammal")
   ↔ Exists (λ img, "mammal" ∈ Image.tags img)
       [Image.mk "cat.png" "Cat" ["mammal"]; Image.mk "fish.png" "Fish" []])
  ∧ (∀ s, s ∈ itemSets animals → ItemSet.packageName s = "animals" →
       ItemSet.tagName s = "mammal" → ItemSet.images s = ["cat.png"]).
Proof.
  refine (itemSets_tag animals "animals" animalsPackage "mammal"
            (TagMeta.mk "Mammals" "Warm-blooded" "class")
            animals_wf animals_package _ _).
  - left.
  - by_compute.
Defined.

(** C2 fails as stated at the tag key "all": the "all" ItemSet carries that
    tagName although no image carries the tag. *)
Lemma itemSets_tag_counterexample :
  NoDup (packages reservedKeyUnused).*1
  ∧ ("p", Package.mk "P" [Image.mk "a.png" "A" []]
            [("all", TagMeta.mk "Everything" "Every image" "misc")])
    ∈ packages reservedKeyUnused
  ∧ ("all", TagMeta.mk "Everything" "Every image" "misc")
    ∈ Package.tags (Package.mk "P" [Image.mk "a.png" "A" []]
                      [("all", TagMeta.mk "Everything" "Every image" "misc")])
  ∧ (∃ s, s ∈ itemSets reservedKeyUnused ∧ ItemSet.packageName s = "p"
          ∧ ItemSet.tagName s = "all"
          ∧ ItemSet.images s
            ≠ Image.filename <$> filter (λ img, "all" ∈ Image.tags img)
                                   [Image.mk "a.png" "A" []])
  ∧ ¬ Exists (λ img, "all" ∈ Image.tags img) [Image.mk "a.png" "A" []].
Proof.
  split; [apply NoDup_singleton|]. split; [left|]. split; [left|]. split.
  - exists (ItemSet.mk "p" "P" "all" "All Items" ["a.png"]).
    split; [left|]. by vm_compute.
  - by_compute.
Qed.

(** ** Materialisation *)

Lemma Array_map_from_Ok {A B} (f : A → nat → Result B) (g : A → nat → B)
    (k : nat) (l : list A) :
  (∀ x i, f x i = Ok (g x i)) →
  ∃ ys, Array_map_from f k l = Ok ys
        ∧ length ys = length l
        ∧ ∀ i x, l !! i = Some x → ys !! i = Some (g x (k + i)).
Proof.
  intros Hf. revert k. induction l as [|x l IH]; intros k.
  - exists []. by split.
  - destruct (IH (S k)) as (ys & Hys & Hlen & Hlook).
    exists (g x k :: ys). simpl. rewrite Hf, Hys. simpl.
    split; [done|]. split; [by rewrite Hlen|].
    intros [|i] y Hy; simpl in *.
    + inversion Hy; subst. by rewrite Nat.add_0_r.
    + rewrite (Hlook i y Hy). do 2 f_equal. lia.
Qed.

Lemma Array_map_from_Throw {A B} (f : A → nat → Result B) (e : JsError)
    (k : nat) (l : list A) :
  (∀ x i, f x i = Throw e) → l ≠ [] → Array_map_from f k l = Throw e.
Proof.
  intros Hf Hl. destruct l as [|x l]; [done|]. simpl. by rewrite Hf.
Qed.

Lemma find_firstMatch (imgs : list Image.t) (f : string) :
  firstMatch imgs f (List.find (λ img, bool_decide (Image.filename img = f)) imgs).
Proof.
  induction imgs as [|img imgs IH]; simpl.
  - constructor.
  - case_bool_decide as Hname.
    + exists [], imgs. by repeat split.
    + destruct (List.find _ imgs) as [img'|]; simpl in *.
      * destruct IH as (pre & post & -> & Hf & Hpre).
        exists (img :: pre), post. repeat split; [done|]. by constructor.
      * by constructor.
Qed.

Lemma firstMatch_unique (imgs : list Image.t) (f : string) (r1 r2 : option Image.t) :
  firstMatch imgs f r1 → firstMatch imgs f r2 → r1 = r2.
Proof.
  revert r1 r2. induction imgs as [|img imgs IH]; intros r1 r2 H1 H2.
  - destruct r1 as [x|]; [destruct H1 as ([|??] & ? & ? & _); done|].
    destruct r2 as [x|]; [destruct H2 as ([|??] & ? & ? & _); done|]. done.
  - assert (Hstep : ∀ r, firstMatch (img :: imgs) f r →
              (Image.filename img = f ∧ r = Some img)
              ∨ (Image.filename img ≠ f ∧ firstMatch imgs f r)).
    { intros [x|] Hr; simpl in Hr.
      - destruct Hr as ([|y pre] & post & Heq & Hx & Hpre); simplify_eq/=.
        + by left.
        + apply Forall_cons in Hpre as [Hy Hpre]. right. split; [done|].
          by exists pre, post.
      - apply Forall_cons in Hr as [Hy Hr]. by right. }
    destruct (Hstep r1 H1) as [[? ->]|[? H1']], (Hstep r2 H2) as [[? ->]|[? H2']];
      try done.
    by apply IH.
Qed.

Lemma split_head (s : string) :
  ∃ stem, split "." s !! 0 = Some stem ∧ beforeFirstDot s stem.
Proof.
  induction s as [|c s (stem & Hstem & Hno & Hshape)]; simpl.
  - exists EmptyString. split; [done|]. split; [apply not_elem_of_nil | by left].
  - case_decide as Hc.
    + subst c. exists EmptyString. split; [done|].
      split; [apply not_elem_of_nil | right; by exists s].
    + destruct (split "." s) as [|piece pieces]; [done|].
      simpl in Hstem. injection Hstem as ->.
      exists (String c stem). split; [done|]. split.
      * simpl. rewrite not_elem_of_cons. split; [congruence | done].
      * destruct Hshape as [->|[rest ->]]; [by left|right; by exists rest].
Qed.

Lemma append_nil_l (s : string) : EmptyString +:+ s = s.
Proof. reflexivity. Qed.

Lemma append_cons (c : ascii) (s1 s2 : string) :
  String c s1 +:+ s2 = String c (s1 +:+ s2).
Proof. reflexivity. Qed.

Lemma beforeFirstDot_unique (s stem1 stem2 : string) :
  beforeFirstDot s stem1 → beforeFirstDot s stem2 → stem1 = stem2.
Proof.
  revert stem1 stem2. induction s as [|c s IH]; intros stem1 stem2.
  - assert (Hnil : ∀ stem, beforeFirstDot EmptyString stem → stem = EmptyString).
    { intros stem [_ [?|[r Hr]]]; [done|]. by destruct stem. }
    intros H1 H2. by rewrite (Hnil _ H1), (Hnil _ H2).
  - assert (Hstep : ∀ stem, beforeFirstDot (String c s) stem →
              (c = "."%char ∧ stem = EmptyString)
              ∨ (c ≠ "."%char ∧ ∃ stem', stem = String c stem' ∧ beforeFirstDot s stem')).
    { intros [|c' stem'] [Hno Hshape]; simpl in Hno.
      - destruct Hshape as [?|[rest Heq]]; [done|].
        rewrite append_nil_l, append_cons in Heq. injection Heq as -> _.
        by left.
      - apply not_elem_of_cons in Hno as [Hne Hno].
        right. destruct Hshape as [Heq|[rest Heq]].
        + injection Heq as <- <-. split; [done|]. exists s.
          split; [done|]. split; [done|by left].
        + rewrite append_cons in Heq. injection Heq as <- ->.
          split; [done|]. exists stem'. split; [done|].
          split; [done|right; by exists rest]. }
    intros H1 H2.
    destruct (Hstep _ H1) as [[? ->]|[? (s1 & -> & H1')]],
             (Hstep _ H2) as [[? ->]|[? (s2 & -> & H2')]]; try done.
    f_equal. by apply IH.
Qed.

(** For a package of the catalog the callback never throws, so the map
    yields one item per selected filename, built from that filename and its
    position. *)
Lemma newItems_existing (config : ImagesetConfig) (p t : string)
    (images : list string) (d : Package.t) :
  get (packages config) p = Some d →
  ∃ items,
    newItems config p t images = Ok items
    ∧ length items = length images
    ∧ ∀ i image, images !! i = Some image →
        items !! i
        = Some (Item.mk
                  (p +:+ "-" +:+ t +:+ "-item-" +:+ pretty i)
                  (or_string
                     (Image.label
                        <$> List.find (λ img, bool_decide (Image.filename img = image))
                              (Package.images d))
                     (template (split "." image !! 0)))
                  ("/images/" +:+ p +:+ "/" +:+ image)
                  (or_array
                     (Image.tags
                        <$> List.find (λ img, bool_decide (Image.filename img = image))
                              (Package.images d))
                     [])).
Proof.
  intros Hget. unfold newItems, Array_map. rewrite Hget.
  destruct (Array_map_from_Ok (newItem p t (Some d))
              (λ image i,
                 match newItem p t (Some d) image i with
                 | Ok item => item
                 | Throw _ => Item.mk EmptyString EmptyString EmptyString []
                 end) 0 images) as (items & Hitems & Hlen & Hlook);
    [reflexivity|].
  exists items. split; [done|]. split; [done|].
  intros i image Himage. by rewrite (Hlook i image Himage).
Qed.

(** C3 (amended): for a packageName that is no key of the catalog,
    materialisation does not fall back to defaults: with a non-empty
    selection the first per-image lookup raises a TypeError, and no item is
    created and no Create is invoked; only the empty selection succeeds, and
    it creates the empty batch. *)
Theorem handleItemSetSelect_missing_package {Board : Type}
    (config : ImagesetConfig)
    (onItemsCreate : list Item.t → Board → Board)
    (onUndoItemsCreate : list string → Board → Board)
    (p t : string) (images : list string) (w : World.t Board) :
  get (packages config) p = None →
  handleItemSetSelect config onItemsCreate onUndoItemsCreate p t images w
  = match images with
    | [] => Ok (handleCreateItems onItemsCreate onUndoItemsCreate [] w)
    | _ :: _ => Throw TypeError
    end.
Proof.
  intros Hget. unfold handleItemSetSelect, newItems, Array_map. rewrite Hget.
  destruct images as [|image images]; [done|].
  by rewrite (Array_map_from_Throw _ TypeError).
Qed.

Lemma handleItemSetSelect_missing_package_witness :
  handleItemSetSelect animals (λ items b, b ++ items)
    (λ ids b, filter (λ item, Item.id item ∉ ids) b)
    "ghost" "all" ["cat.png"] (World.mk [] [] false [])
  = Throw TypeError.
Proof.
  apply (handleItemSetSelect_missing_package animals _ _ "ghost" "all" ["cat.png"]).
  reflexivity.
Defined.

(** C3 fails as stated: materialising one filename under a package name that
    the catalog lacks raises instead of synthesising defaults. *)
Lemma newItems_missing_package_counterexample :
  get (packages animals) "ghost" = None
  ∧ newItems animals "ghost" "all" ["ghost.png"] = Throw TypeError
  ∧ ∀ items, newItems animals "ghost" "all" ["ghost.png"] ≠ Ok items.
Proof. by repeat split. Qed.

(** C4: for a package of the catalog and the filename at any position of the
    selection, the item at that position has as content the label of the
    first image entry with that filename when there is one and its label is
    not empty, and otherwise the filename's text before its first "."; as
    imageUrl "/images/" + packageName + "/" + filename; and as tags the tags
    of that entry, or none when no entry has the filename. *)
Theorem newItems_fields (config : ImagesetConfig) (p t : string)
    (images : list string) (d : Package.t) (i : nat) (image : string) :
  get (packages config) p = Some d → images !! i = Some image →
  ∃ items item found stem,
    newItems config p t images = Ok items
    ∧ items !! i = Some item
    ∧ firstMatch (Package.images d) image found
    ∧ beforeFirstDot image stem
    ∧ Item.content item
      = match found with
        | Some img => if decide (Image.label img = EmptyString) then stem else Image.label img
        | None => stem
        end
    ∧ Item.imageUrl item = "/images/" +:+ p +:+ "/" +:+ image
    ∧ Item.tags item
      = match found with
        | Some img => Image.tags img
        | None => []
        end.
Proof.
  intros Hget Himage.
  destruct (newItems_existing config p t images d Hget) as (items & Hitems & _ & Hlook).
  destruct (split_head image) as (stem & Hstem & Hdot).
  eexists items, _,
    (List.find (λ img, bool_decide (Image.filename img = image)) (Package.images d)),
    stem.
  split; [done|]. split; [by apply Hlook|].
  split; [apply find_firstMatch|]. split; [done|].
  simpl. rewrite Hstem. by destruct (List.find _ _).
Qed.

Lemma newItems_fields_witness :
  ∃ items item found stem,
    newItems animals "animals" "all" ["cat.png"; "ghost.png"] = Ok items
    ∧ items !! 1 = Some item
    ∧ firstMatch [Image.mk "cat.png" "Cat" ["mammal"]; Image.mk "fish.png" "Fish" []]
        "ghost.png" found
    ∧ beforeFirstDot "ghost.png" stem
    ∧ Item.content item
      = match found with
        | Some img => if decide (Image.label img = EmptyString) then stem else Image.label img
        | None => stem
        end
    ∧ Item.imageUrl item = "/images/" +:+ "animals" +:+ "/" +:+ "ghost.png"
    ∧ Item.tags item
      = match found with
        | Some img => Image.tags img
        | None => []
        end.
Proof.
  apply (newItems_fields animals "animals" "all" ["cat.png"; "ghost.png"]
           animalsPackage 1 "ghost.png"); reflexivity.
Defined.

(** C5: for a package of the catalog, any tagName and any selection of
    length n, materialisation yields exactly n items, the one at position i
    having the id packageName-tagName-item-i, and these ids are pairwise
    distinct. *)
Theorem newItems_ids (config : ImagesetConfig) (p t : string)
    (images : list string) (d : Package.t) :
  get (packages config) p = Some d →
  ∃ items,
    newItems config p t images = Ok items
    ∧ length items = length images
    ∧ (∀ i, i < length images →
         ∃ item, items !! i = Some item
                 ∧ Item.id item = p +:+ "-" +:+ t +:+ "-item-" +:+ pretty i)
    ∧ NoDup (Item.id <$> items).
Proof.
  intros Hget.
  destruct (newItems_existing config p t images d Hget) as (items & Hitems & Hlen & Hlook).
  assert (Hid : ∀ i, i < length images →
            ∃ item, items !! i = Some item
                    ∧ Item.id item = p +:+ "-" +:+ t +:+ "-item-" +:+ pretty i).
  { intros i Hi. destruct (lookup_lt_is_Some_2 images i Hi) as [image Himage].
    eexists. split; [by apply Hlook|done]. }
  exists items. repeat split; [done..|].
  apply NoDup_alt. intros i j x Hi Hj.
  rewrite list_lookup_fmap in Hi, Hj.
  destruct (items !! i) as [a|] eqn:Ha; [|done].
  destruct (items !! j) as [b|] eqn:Hb; [|done].
  simpl in Hi, Hj. injection Hi as Hi. injection Hj as Hj.
  destruct (Hid i) as (a' & Ha' & Hida);
    [rewrite <- Hlen; by eapply lookup_lt_Some|].
  destruct (Hid j) as (b' & Hb' & Hidb);
    [rewrite <- Hlen; by eapply lookup_lt_Some|].
  rewrite Ha in Ha'. injection Ha' as <-.
  rewrite Hb in Hb'. injection Hb' as <-.
  assert (Heq : p +:+ "-" +:+ t +:+ "-item-" +:+ pretty i
                = p +:+ "-" +:+ t +:+ "-item-" +:+ pretty j) by congruence.
  do 4 apply (inj (String.app _)) in Heq.
  by apply (inj pretty) in Heq.
Qed.

Lemma newItems_ids_witness :
  ∃ items,
    newItems animals "animals" "mammal" ["cat.png"; "ghost.png"] = Ok items
    ∧ length items = 2
    ∧ (∀ i, i < 2 →
         ∃ item, items !! i = Some item
                 ∧ Item.id item = "animals" +:+ "-" +:+ "mammal" +:+ "-item-" +:+ pretty i)
    ∧ NoDup (Item.id <$> items).
Proof.
  apply (newItems_ids animals "animals" "mammal" ["cat.png"; "ghost.png"]
           animalsPackage).
  reflexivity.
Defined.

(** ** Undoable create *)

(** C6 (amended): the notification fired by a Create of batch B carries an
    undo action which, invoked on any later board state, calls the undo entry
    point with the ids that the items of the array handed over by that Create
    carry at that moment, and with no other ids.  These are the ids of the
    items of B as created, whatever else has happened to the board, as long
    as the ids in that array are what they were; a write to the array that
    adds or removes items or changes an id changes what the undo asks for. *)
Theorem handleCreateItems_undo {Board : Type}
    (onItemsCreate : list Item.t → Board → Board)
    (onUndoItemsCreate : list string → Board → Board)
    (B : list Item.t) (w : World.t Board) :
  ∃ t,
    World.toasts (handleCreateItems onItemsCreate onUndoItemsCreate B w)
    = World.toasts w ++ [t]
    ∧ Toast.action_label t = "Undo"
    ∧ World.arrays (handleCreateItems onItemsCreate onUndoItemsCreate B w)
      = World.arrays w ++ [B]
    ∧ (∀ (arrays : Arrays) (later : Board),
         Toast.action_onClick t arrays later
         = onUndoItemsCreate
             (Item.id <$> default [] (arrays !! length (World.arrays w))) later)
    ∧ (∀ (arrays : Arrays) (later : Board) (now : list Item.t),
         arrays !! length (World.arrays w) = Some now →
         Item.id <$> now = Item.id <$> B →
         Toast.action_onClick t arrays later
         = onUndoItemsCreate (Item.id <$> B) later).
Proof.
  eexists. split; [reflexivity|]. split; [reflexivity|]. split; [reflexivity|].
  split; [done|]. intros arrays later now Hnow Hids. simpl.
  by rewrite Hnow, <- Hids.
Qed.

Lemma handleCreateItems_undo_witness :
  ∃ t,
    World.toasts
      (handleCreateItems (λ newItems, record (CallOnItemsCreate newItems))
         (λ ids, record (CallOnUndoItemsCreate ids))
         [Item.mk "u-1" "One" "/one.png" []] (World.mk [] [] true []))
    = [t]
    ∧ Toast.action_onClick t [[Item.mk "u-1" "Uno" "/one.png" ["edited"]]] [CallResetItems]
      = [CallResetItems; CallOnUndoItemsCreate ["u-1"]].
Proof.
  destruct (handleCreateItems_undo (λ newItems, record (CallOnItemsCreate newItems))
              (λ ids, record (CallOnUndoItemsCreate ids))
              [Item.mk "u-1" "One" "/one.png" []] (World.mk [] [] true []))
    as (t & Htoasts & _ & _ & _ & Hsame).
  exists t. split; [exact Htoasts|].
  apply (Hsame [[Item.mk "u-1" "Uno" "/one.png" ["edited"]]] [CallResetItems]
           [Item.mk "u-1" "Uno" "/one.png" ["edited"]]); reflexivity.
Defined.

(** C6 fails as stated: between the create and the undo, the holder of the
    array edits the id of its first item and pushes a third item; the undo
    then asks for the removal of the ids "edited", "u-2" and "u-9", not of
    the ids "u-1" and "u-2" of the batch. *)
Lemma handleCreateItems_undo_counterexample :
  ∃ w',
    dispatchRecorded animals
      [ItemsCreated [Item.mk "u-1" "One" "/one.png" []; Item.mk "u-2" "Two" "/two.png" []];
       ArrayWritten 0
         [Item.mk "edited" "One" "/one.png" []; Item.mk "u-2" "Two" "/two.png" [];
          Item.mk "u-9" "Nine" "/nine.png" []];
       ToastActionClicked 0]
      (World.mk [] [] false []) = Ok w'
    ∧ World.board w'
      = [CallOnItemsCreate
           [Item.mk "u-1" "One" "/one.png" []; Item.mk "u-2" "Two" "/two.png" []];
         CallOnUndoItemsCreate ["edited"; "u-2"; "u-9"]]
    ∧ ["edited"; "u-2"; "u-9"]
      ≠ Item.id <$> [Item.mk "u-1" "One" "/one.png" []; Item.mk "u-2" "Two" "/two.png" []].
Proof. eexists. split; [reflexivity|]. split; [reflexivity|]. done. Qed.


(** * Further properties of the derivation *)

(** Proves a membership in a concrete list by evaluating the list. *)
Ltac by_membership :=
  apply list_elem_of_In; vm_compute;
  repeat first [ left; reflexivity | right ].

Lemma elem_of_itemSets (config : ImagesetConfig) (s : ItemSet.t) :
  s ∈ itemSets config ↔ ∃ p d, (p, d) ∈ packages config ∧ s ∈ packageBlock (p, d).
Proof.
  rewrite itemSets_blocks, list_elem_of_join. split.
  - intros (blk & Hs & Hblk).
    apply list_elem_of_fmap in Hblk as ([p d] & -> & Hin). eauto.
  - intros (p & d & Hin & Hs). exists (packageBlock (p, d)).
    split; [done|]. by apply list_elem_of_fmap_2.
Qed.

(** X1: the derivation treats the packages independently: the catalog of a
    concatenation of two package lists is the concatenation of their
    catalogs. *)
Theorem itemSets_app (ps1 ps2 : JsObject Package.t) :
  itemSets {| packages := ps1 ++ ps2 |}
  = itemSets {| packages := ps1 |} ++ itemSets {| packages := ps2 |}.
Proof. rewrite !itemSets_blocks. simpl. by rewrite fmap_app, join_app. Qed.

(** X2: the number of ItemSets is, summed over the packages, one plus the
    number of tag-map entries carried by some image; so it lies between the
    number of packages and that number plus the number of all tag-map
    entries. *)
Theorem itemSets_length (config : ImagesetConfig) :
  length (itemSets config)
  = sum_list ((λ e, S (length (filter (λ t, Exists (λ img, t.1 ∈ Image.tags img)
                                               (Package.images e.2))
                                 (Package.tags e.2))))
                <$> packages config)
  ∧ length (packages config) ≤ length (itemSets config)
  ∧ length (itemSets config)
    ≤ length (packages config)
      + sum_list ((λ e, length (Package.tags e.2)) <$> packages config).
Proof.
  rewrite itemSets_blocks, length_join.
  assert (Hblock : ∀ e : string * Package.t,
            length (packageBlock e)
            = S (length (filter (λ t : string * TagMeta.t,
                                   Exists (λ img, t.1 ∈ Image.tags img) (Package.images e.2))
                           (Package.tags e.2)))
            ∧ 1 ≤ length (packageBlock e) ≤ 1 + length (Package.tags e.2)).
  { intros e. unfold packageBlock. simpl. rewrite length_fmap.
    split; [done|]. split; [lia|]. apply le_n_S, length_filter. }
  induction (packages config) as [|e ps (IH1 & IH2 & IH3)]; [done|].
  destruct (Hblock e) as (Heq & Hlo & Hhi).
  rewrite !fmap_cons. cbn [sum_list sum_list_with length].
  split; [by rewrite IH1, Heq|]. unfold id in *. split; lia.
Qed.

(** X3: every emitted ItemSet belongs to a package of the catalog, carries
    its display name, and lists a sublist of that package's filenames: no
    foreign file, no reordering, no repetition beyond the package's own. *)
Theorem itemSets_images_sublist (config : ImagesetConfig) (s : ItemSet.t) :
  s ∈ itemSets config →
  ∃ d, (ItemSet.packageName s, d) ∈ packages config
       ∧ ItemSet.packageDisplayName s = Package.displayName d
       ∧ ItemSet.images s `sublist_of` (Image.filename <$> Package.images d).
Proof.
  intros Hs. apply elem_of_itemSets in Hs as (p & d & Hin & Hs).
  exists d. apply elem_of_packageBlock in Hs as [->|(e & _ & _ & ->)]; simpl.
  - done.
  - repeat split; [done|]. apply fmap_sublist, sublist_filter.
Qed.

Lemma itemSets_images_sublist_witness :
  ∃ d, ("animals", d) ∈ packages animals
       ∧ "Animals" = Package.displayName d
       ∧ ["cat.png"] `sublist_of` (Image.filename <$> Package.images d).
Proof.
  apply (itemSets_images_sublist animals
           (ItemSet.mk "animals" "Animals" "mammal" "Mammals" ["cat.png"])).
  by_membership.
Defined.

(** X4: an emitted ItemSet without images is the "all" set of a package
    without images; the set of a tag is never empty. *)
Theorem itemSets_empty_images (config : ImagesetConfig) (s : ItemSet.t) :
  s ∈ itemSets config → ItemSet.images s = [] →
  ItemSet.tagName s = "all" ∧ ItemSet.tagTitle s = "All Items"
  ∧ ∃ d, (ItemSet.packageName s, d) ∈ packages config ∧ Package.images d = [].
Proof.
  intros Hs Hempty. apply elem_of_itemSets in Hs as (p & d & Hin & Hs).
  apply elem_of_packageBlock in Hs as [->|(e & _ & Hc & ->)]; simpl in *.
  - repeat split. exists d. split; [done|]. by eapply fmap_nil_inv.
  - apply fmap_nil_inv in Hempty. apply taggedImages_carried in Hc.
    unfold taggedImages in Hc. rewrite Hempty in Hc. simpl in Hc. lia.
Qed.

Lemma itemSets_empty_images_witness :
  "all" = "all" ∧ "All Items" = "All Items"
  ∧ ∃ d, ("void", d) ∈ packages emptyPackage ∧ Package.images d = [].
Proof.
  apply (itemSets_empty_images emptyPackage (ItemSet.mk "void" "Void" "all" "All Items" [])).
  - by_membership.
  - reflexivity.
Defined.

(** X5: a tag that images carry but the package's tag map does not define
    gets no ItemSet (the name "all" apart): such tags are ignored silently. *)
Theorem itemSets_undefined_tag (config : ImagesetConfig) (p : string) (d : Package.t)
    (t : string) (s : ItemSet.t) :
  NoDup (packages config).*1 → (p, d) ∈ packages config →
  t ∉ (Package.tags d).*1 → t ≠ "all" →
  s ∈ itemSets config → ItemSet.packageName s = p → ItemSet.tagName s ≠ t.
Proof.
  intros Hnd Hin Hkey Hall Hs Hp Ht.
  assert (Hb : s ∈ packageBlock (p, d))
    by (by apply (elem_of_itemSets_package config p d s Hnd Hin)).
  apply elem_of_packageBlock in Hb as [->|([k kd] & Hk & _ & ->)]; simpl in Ht.
  - congruence.
  - subst k. apply Hkey. apply list_elem_of_fmap. by exists (t, kd).
Qed.

Lemma itemSets_undefined_tag_witness :
  ItemSet.tagName (ItemSet.mk "zoo" "Zoo" "all" "All Items" ["owl.png"]) ≠ "bird".
Proof.
  apply (itemSets_undefined_tag undefinedTag "zoo"
           (Package.mk "Zoo" [Image.mk "owl.png" "Owl" ["bird"]] []) "bird").
  - apply NoDup_singleton.
  - left.
  - apply not_elem_of_nil.
  - done.
  - by_membership.
  - reflexivity.
Defined.

(** X6: when the package names are pairwise distinct and every tag map has
    pairwise distinct keys none of which is "all", no two emitted ItemSets
    share both packageName and tagName: the pair identifies the group. *)
Theorem itemSets_keys_NoDup (config : ImagesetConfig) :
  NoDup (packages config).*1 →
  (∀ p d, (p, d) ∈ packages config →
          NoDup (Package.tags d).*1 ∧ "all" ∉ (Package.tags d).*1) →
  NoDup ((λ s, (ItemSet.packageName s, ItemSet.tagName s)) <$> itemSets config).
Proof.
  rewrite itemSets_blocks.
  induction (packages config) as [|[p d] ps IH]; intros Hnd Htags.
  - constructor.
  - rewrite !fmap_cons in *. apply NoDup_cons in Hnd as [Hp Hnd]. simpl in Hp.
    change (mjoin (packageBlock (p, d) :: (packageBlock <$> ps)))
      with (packageBlock (p, d) ++ mjoin (packageBlock <$> ps)).
    rewrite fmap_app. apply NoDup_app. split; [|split].
    + destruct (Htags p d) as [Hkeys Hall]; [left|].
      unfold packageBlock. simpl. rewrite <- list_fmap_compose.
      apply NoDup_cons. split.
      * intros Hin. apply list_elem_of_fmap in Hin as ([t td] & Heq & Hin).
        simpl in Heq. injection Heq as <-. apply Hall.
        apply list_elem_of_filter in Hin as [_ Hin].
        apply list_elem_of_fmap. by exists ("all", td).
      * assert (Hsub : NoDup (filter (λ e : string * TagMeta.t, carried d e.1)
                                (Package.tags d)).*1).
        { eapply sublist_NoDup; [exact Hkeys|]. apply fmap_sublist, sublist_filter. }
        apply (NoDup_fmap_2 (λ t : string, (p, t))) in Hsub.
        by rewrite <- list_fmap_compose in Hsub.
    + intros x Hx Hx'.
      apply list_elem_of_fmap in Hx as (s & -> & Hs).
      apply list_elem_of_fmap in Hx' as (s' & Heq & Hs').
      pose proof (packageBlock_names (p, d)) as Hn. rewrite Forall_forall in Hn.
      destruct (Hn s Hs) as [Hname _]. simpl in Hname.
      apply list_elem_of_join in Hs' as (blk & Hs' & Hblk).
      apply list_elem_of_fmap in Hblk as ([q dq] & -> & Hq).
      pose proof (packageBlock_names (q, dq)) as Hn'. rewrite Forall_forall in Hn'.
      destruct (Hn' s' Hs') as [Hname' _]. simpl in Hname'.
      apply Hp. apply list_elem_of_fmap. exists (q, dq). split; [|done].
      simpl. injection Heq as Heq _. congruence.
    + apply IH; [done|]. intros q dq Hq. apply (Htags q dq). by right.
Qed.

Lemma itemSets_keys_NoDup_witness :
  NoDup ((λ s, (ItemSet.packageName s, ItemSet.tagName s)) <$> itemSets animals).
Proof.
  apply (itemSets_keys_NoDup animals animals_wf).
  intros p d Hin. apply list_elem_of_singleton in Hin. injection Hin as -> ->.
  split; [apply NoDup_singleton|]. by_compute.
Defined.

(** * Further properties of the materialisation *)

Lemma get_is_Some {V} (o : JsObject V) (k : string) :
  k ∈ o.*1 → is_Some (get o k).
Proof.
  induction o as [|[k' v] o IH]; intros Hin.
  - by apply elem_of_nil in Hin.
  - simpl. case_decide; [by eexists|].
    apply IH. rewrite fmap_cons in Hin. apply elem_of_cons in Hin as [?|?];
      [by subst|done].
Qed.

Lemma get_NoDup {V} (o : JsObject V) (k : string) (v : V) :
  NoDup o.*1 → (k, v) ∈ o → get o k = Some v.
Proof.
  induction o as [|[k' v'] o IH]; intros Hnd Hin.
  - by apply elem_of_nil in Hin.
  - rewrite fmap_cons in Hnd. apply NoDup_cons in Hnd as [Hk Hnd]. simpl in *.
    apply elem_of_cons in Hin as [Heq|Hin].
    + injection Heq as <- <-. by rewrite decide_True.
    + rewrite decide_False; [by apply IH|].
      intros ->. apply Hk. apply list_elem_of_fmap. by exists (k, v).
Qed.

(** X7: every ItemSet the derivation offers can be materialised: selecting
    its package, tag and images never throws and yields one item per
    image. *)
Theorem newItems_of_itemSet (config : ImagesetConfig) (s : ItemSet.t) :
  s ∈ itemSets config →
  ∃ items,
    newItems config (ItemSet.packageName s) (ItemSet.tagName s) (ItemSet.images s)
    = Ok items
    ∧ length items = length (ItemSet.images s).
Proof.
  intros Hs. apply elem_of_itemSets in Hs as (p & d & Hin & Hs).
  pose proof (packageBlock_names (p, d)) as Hn. rewrite Forall_forall in Hn.
  destruct (Hn s Hs) as [-> _]. simpl.
  destruct (get_is_Some (packages config) p) as [d' Hget].
  { apply list_elem_of_fmap. by exists (p, d). }
  destruct (newItems_existing config p (ItemSet.tagName s) (ItemSet.images s) d' Hget)
    as (items & Hitems & Hlen & _).
  eauto.
Qed.

Lemma newItems_of_itemSet_witness :
  ∃ items,
    newItems animals "animals" "mammal" ["cat.png"] = Ok items
    ∧ length items = 1.
Proof.
  apply (newItems_of_itemSet animals
           (ItemSet.mk "animals" "Animals" "mammal" "Mammals" ["cat.png"])).
  by_membership.
Defined.

Lemma find_unique_filename (imgs : list Image.t) (img : Image.t) :
  NoDup (Image.filename <$> imgs) → img ∈ imgs →
  List.find (λ x, bool_decide (Image.filename x = Image.filename img)) imgs = Some img.
Proof.
  induction imgs as [|x imgs IH]; intros Hnd Hin.
  - by apply elem_of_nil in Hin.
  - rewrite fmap_cons in Hnd. apply NoDup_cons in Hnd as [Hx Hnd]. simpl.
    apply elem_of_cons in Hin as [->|Hin].
    + by rewrite bool_decide_eq_true_2.
    + rewrite bool_decide_eq_false_2; [by apply IH|].
      intros Heq. apply Hx. rewrite Heq. by apply list_elem_of_fmap_2.
Qed.

(** In a package with pairwise distinct filenames, the lookup by filename
    finds the image the filename was taken from. *)
Lemma newItems_lookup_unique (config : ImagesetConfig) (p t : string)
    (d : Package.t) (imgs : list Image.t) :
  get (packages config) p = Some d →
  NoDup (Image.filename <$> Package.images d) →
  imgs ⊆ Package.images d →
  ∃ items,
    newItems config p t (Image.filename <$> imgs) = Ok items
    ∧ length items = length imgs
    ∧ ∀ i img, imgs !! i = Some img →
        ∃ it, items !! i = Some it
              ∧ Item.tags it = Image.tags img
              ∧ Item.content it
                = or_string (Some (Image.label img))
                    (template (split "." (Image.filename img) !! 0)).
Proof.
  intros Hget Hnd Hsub.
  destruct (newItems_existing config p t (Image.filename <$> imgs) d Hget)
    as (items & Hitems & Hlen & Hlook).
  exists items. split; [done|]. split; [by rewrite Hlen, length_fmap|].
  intros i img Himg. eexists. split.
  - apply Hlook. by rewrite list_lookup_fmap, Himg.
  - rewrite (find_unique_filename _ img Hnd); [done|].
    apply Hsub. by eapply list_elem_of_lookup_2.
Qed.

(** X8: in a package whose filenames are pairwise distinct, materialising the
    filenames of some of its images gives, position by position, items with
    the tags of those images and, where the label is not empty, their labels
    as content. *)
Theorem newItems_unique_filenames (config : ImagesetConfig) (p t : string)
    (d : Package.t) (imgs : list Image.t) :
  get (packages config) p = Some d →
  NoDup (Image.filename <$> Package.images d) →
  imgs ⊆ Package.images d →
  ∃ items,
    newItems config p t (Image.filename <$> imgs) = Ok items
    ∧ Forall2 (λ img it,
                 Item.tags it = Image.tags img
                 ∧ (Image.label img ≠ EmptyString → Item.content it = Image.label img))
        imgs items.
Proof.
  intros Hget Hnd Hsub.
  destruct (newItems_lookup_unique config p t d imgs Hget Hnd Hsub)
    as (items & Hitems & Hlen & Hlook).
  exists items. split; [done|].
  apply Forall2_same_length_lookup_2; [done|].
  intros i img it Himg Hit.
  destruct (Hlook i img Himg) as (it' & Hit' & Htags & Hcontent).
  assert (it' = it) as -> by congruence.
  split; [done|]. intros Hlabel. rewrite Hcontent. simpl.
  by rewrite decide_False.
Qed.

Lemma newItems_unique_filenames_witness :
  ∃ items,
    newItems animals "animals" "all" ["fish.png"; "cat.png"] = Ok items
    ∧ Forall2 (λ img it,
                 Item.tags it = Image.tags img
                 ∧ (Image.label img ≠ EmptyString → Item.content it = Image.label img))
        [Image.mk "fish.png" "Fish" []; Image.mk "cat.png" "Cat" ["mammal"]] items.
Proof.
  apply (newItems_unique_filenames animals "animals" "all" animalsPackage
           [Image.mk "fish.png" "Fish" []; Image.mk "cat.png" "Cat" ["mammal"]]).
  - reflexivity.
  - by_compute.
  - intros img Himg. apply list_elem_of_In in Himg. apply list_elem_of_In.
    simpl in *. tauto.
Defined.

(** X9: with pairwise distinct package names and, in the package, pairwise
    distinct filenames, materialising an offered ItemSet of a tag yields
    items that all carry that tag. *)
Theorem newItems_tag_carried (config : ImagesetConfig) (p : string) (d : Package.t)
    (s : ItemSet.t) :
  NoDup (packages config).*1 → (p, d) ∈ packages config →
  NoDup (Image.filename <$> Package.images d) →
  s ∈ itemSets config → ItemSet.packageName s = p → ItemSet.tagName s ≠ "all" →
  ∃ items,
    newItems config p (ItemSet.tagName s) (ItemSet.images s) = Ok items
    ∧ length items = length (ItemSet.images s)
    ∧ Forall (λ it, ItemSet.tagName s ∈ Item.tags it) items.
Proof.
  intros Hnd Hin Hfiles Hs Hp Hall.
  assert (Hb : s ∈ packageBlock (p, d))
    by (by apply (elem_of_itemSets_package config p d s Hnd Hin)).
  apply elem_of_packageBlock in Hb as [->|([t td] & _ & _ & ->)]; [done|].
  simpl in *.
  destruct (newItems_lookup_unique config p t d
              (filter (λ img, t ∈ Image.tags img) (Package.images d)))
    as (items & Hitems & Hlen & Hlook).
  { by apply get_NoDup. }
  { done. }
  { intros img Himg. by apply list_elem_of_filter in Himg as [_ ?]. }
  exists items. split; [done|]. split; [by rewrite length_fmap|].
  apply Forall_forall. intros it Hit.
  apply list_elem_of_lookup in Hit as [i Hit].
  destruct (lookup_lt_is_Some_2
              (filter (λ img, t ∈ Image.tags img) (Package.images d)) i)
    as [img Himg].
  { rewrite <- Hlen. by eapply lookup_lt_Some. }
  destruct (Hlook i img Himg) as (it' & Hit' & Htags & _).
  assert (it' = it) as -> by congruence.
  rewrite Htags. apply list_elem_of_lookup_2 in Himg.
  by apply list_elem_of_filter in Himg as [? _].
Qed.

Lemma newItems_tag_carried_witness :
  ∃ items,
    newItems animals "animals" "mammal" ["cat.png"] = Ok items
    ∧ length items = 1
    ∧ Forall (λ it, "mammal" ∈ Item.tags it) items.
Proof.
  apply (newItems_tag_carried animals "animals" animalsPackage
           (ItemSet.mk "animals" "Animals" "mammal" "Mammals" ["cat.png"])
           animals_wf animals_package).
  - by_compute.
  - by_membership.
  - reflexivity.
  - done.
Defined.

Lemma append_assoc (s1 s2 s3 : string) : (s1 +:+ s2) +:+ s3 = s1 +:+ s2 +:+ s3.
Proof.
  induction s1 as [|c s1 IH]; [done|]. by rewrite !append_cons, IH.
Qed.

(** Whatever the package lookup gave, the ids of a map that did not throw are
    the ones of its positions. *)
Lemma Array_map_from_ids (p t : string) (pd : option Package.t) (k : nat)
    (S : list string) (items : list Item.t) :
  Array_map_from (newItem p t pd) k S = Ok items →
  Item.id <$> items
  = (λ index, p +:+ "-" +:+ t +:+ "-item-" +:+ pretty index) <$> seq k (length S).
Proof.
  revert k items. induction S as [|image S IH]; intros k items Hmap; simpl in *.
  - by injection Hmap as <-.
  - destruct pd as [d|]; [|done]. simpl in Hmap.
    destruct (Array_map_from (newItem p t (Some d)) (Datatypes.S k) S) as [ys|e] eqn:Hys;
      [|done].
    simpl in Hmap. injection Hmap as <-. rewrite fmap_cons. simpl.
    f_equal. by apply IH.
Qed.

Lemma newItems_itemIds (config : ImagesetConfig) (p t : string) (S : list string)
    (items : list Item.t) :
  newItems config p t S = Ok items → Item.id <$> items = itemIds p t (length S).
Proof. apply Array_map_from_ids. Qed.

(** X10: the ids do not depend on the selected filenames: of two
    materialisations under the same package and tag, the ids of the shorter
    selection are the first ids of the longer one, so items of both collide
    on the board. *)
Theorem newItems_ids_collide (config : ImagesetConfig) (p t : string)
    (S1 S2 : list string) (items1 items2 : list Item.t) :
  newItems config p t S1 = Ok items1 → newItems config p t S2 = Ok items2 →
  length S1 ≤ length S2 →
  (Item.id <$> items1) `prefix_of` (Item.id <$> items2).
Proof.
  intros H1 H2 Hle.
  rewrite (newItems_itemIds _ _ _ _ _ H1), (newItems_itemIds _ _ _ _ _ H2).
  unfold itemIds.
  replace (length S2) with (length S1 + (length S2 - length S1)) by lia.
  rewrite seq_app, fmap_app. by apply prefix_app_r.
Qed.

Lemma newItems_ids_collide_witness :
  ["animals-all-item-0"] `prefix_of` ["animals-all-item-0"; "animals-all-item-1"].
Proof.
  apply (newItems_ids_collide animals "animals" "all" ["fish.png"] ["cat.png"; "ghost.png"]
           [Item.mk "animals-all-item-0" "Fish" "/images/animals/fish.png" []]
           [Item.mk "animals-all-item-0" "Cat" "/images/animals/cat.png" ["mammal"];
            Item.mk "animals-all-item-1" "ghost" "/images/animals/ghost.png" []]).
  - reflexivity.
  - reflexivity.
  - simpl. lia.
Defined.

(** X11: the id scheme does not separate package from tag: a package named
    P-T with tag U and a package named P with tag T-U give the same ids. *)
Theorem newItems_ids_ambiguous (config : ImagesetConfig) (p t u : string)
    (S1 S2 : list string) (items1 items2 : list Item.t) :
  newItems config (p +:+ "-" +:+ t) u S1 = Ok items1 →
  newItems config p (t +:+ "-" +:+ u) S2 = Ok items2 →
  length S1 = length S2 →
  Item.id <$> items1 = Item.id <$> items2.
Proof.
  intros H1 H2 Hlen.
  rewrite (newItems_itemIds _ _ _ _ _ H1), (newItems_itemIds _ _ _ _ _ H2), Hlen.
  unfold itemIds. apply list_fmap_ext. intros _ index _.
  by rewrite !append_assoc.
Qed.

Lemma newItems_ids_ambiguous_witness :
  ["a-b-c-item-0"] = ["a-b-c-item-0"].
Proof.
  apply (newItems_ids_ambiguous dashed "a" "b" "c" ["x.png"] ["y.png"]
           [Item.mk "a-b-c-item-0" "X" "/images/a-b/x.png" []]
           [Item.mk "a-b-c-item-0" "Y" "/images/a/y.png" []]);
    reflexivity.
Defined.

(** X12: a selected filename without an image entry in the package yields an
    item without tags whose content is the whole filename when it has no
    ".", and the empty text when it begins with ".". *)
Theorem newItems_unlisted (config : ImagesetConfig) (p t : string)
    (images : list string) (d : Package.t) (i : nat) (image : string) :
  get (packages config) p = Some d → images !! i = Some image →
  Forall (λ img, Image.filename img ≠ image) (Package.images d) →
  ∃ items it,
    newItems config p t images = Ok items
    ∧ items !! i = Some it
    ∧ Item.tags it = []
    ∧ ("."%char ∉ String.list_ascii_of_string image → Item.content it = image)
    ∧ (∀ rest, image = "." +:+ rest → Item.content it = EmptyString).
Proof.
  intros Hget Himage Hnone.
  destruct (newItems_existing config p t images d Hget) as (items & Hitems & _ & Hlook).
  destruct (split_head image) as (stem & Hstem & Hdot).
  assert (Hfind : List.find (λ img, bool_decide (Image.filename img = image))
                    (Package.images d) = None).
  { eapply firstMatch_unique; [apply find_firstMatch|exact Hnone]. }
  eexists items, _. split; [done|]. split; [by apply Hlook|].
  simpl. rewrite Hfind, Hstem. simpl. split; [done|]. split.
  - intros Hno. eapply beforeFirstDot_unique; [exact Hdot|]. split; [done|by left].
  - intros rest ->. eapply beforeFirstDot_unique; [exact Hdot|].
    split; [apply not_elem_of_nil|]. right. by exists rest.
Qed.

Lemma newItems_unlisted_witness :
  ∃ items it,
    newItems animals "animals" "all" [".hidden"] = Ok items
    ∧ items !! 0 = Some it
    ∧ Item.tags it = []
    ∧ ("."%char ∉ String.list_ascii_of_string ".hidden" → Item.content it = ".hidden")
    ∧ (∀ rest, ".hidden" = "." +:+ rest → Item.content it = EmptyString).
Proof.
  apply (newItems_unlisted animals "animals" "all" [".hidden"] animalsPackage 0 ".hidden").
  - reflexivity.
  - reflexivity.
  - by_compute.
Defined.

(** * Properties of the handlers and of the menu *)

Section MenuProperties.
Context {Board : Type}.
Variable config : ImagesetConfig.
Variable onItemsCreate : list Item.t → Board → Board.
Variable onUndoItemsCreate : list string → Board → Board.
Variable resetItems : Board → Board.
Variable deleteAllItems : Board → Board.
Variable undoReset : Board → Board.
Variable undoDelete : Board → Board.

Local Abbreviation run :=
  (dispatchAll config onItemsCreate onUndoItemsCreate
     resetItems deleteAllItems undoReset undoDelete).
Local Abbreviation step :=
  (dispatch config onItemsCreate onUndoItemsCreate
     resetItems deleteAllItems undoReset undoDelete).


Lemma dispatch_toasts (e : Event) (w w' : World.t Board) :
  step e w = Ok w' →
  ∃ new, World.toasts w' = World.toasts w ++ new
         ∧ length new = (if notifies e then 1 else 0)
         ∧ Forall (λ n, Toast.action_label n = "Undo") new.
Proof.
  destruct e; simpl; intros Hstep;
    try (injection Hstep as <-; simpl;
         first [ by eexists [_]; repeat split; repeat constructor
               | by exists []; rewrite app_nil_r ]).
  - unfold handleItemSetSelect in Hstep.
    destruct (newItems config packageName tagName images) as [items|err]; [|done].
    simpl in Hstep. injection Hstep as <-. simpl.
    eexists [_]. repeat split. by repeat constructor.
  - destruct (World.toasts w !! n); injection Hstep as <-; simpl;
      by exists []; rewrite app_nil_r.
Qed.

(** X14: along any run of events that does not throw, the notifications
    fired before stay in place unchanged, each event that creates, resets or
    deletes adds exactly one notification, the other events add none, and
    every added notification offers the action "Undo". *)
Theorem dispatchAll_toasts (es : list Event) (w w' : World.t Board) :
  run es w = Ok w' →
  ∃ new, World.toasts w' = World.toasts w ++ new
         ∧ length new = length (filter (λ e, Is_true (notifies e)) es)
         ∧ Forall (λ n, Toast.action_label n = "Undo") new.
Proof.
  revert w. induction es as [|e es IH]; intros w Hrun; simpl in Hrun.
  - injection Hrun as <-. exists []. by rewrite app_nil_r.
  - destruct (step e w) as [w1|err] eqn:Hstep; [|done]. simpl in Hrun.
    destruct (dispatch_toasts e w w1 Hstep) as (new1 & Heq1 & Hlen1 & Hlab1).
    destruct (IH w1 Hrun) as (new2 & Heq2 & Hlen2 & Hlab2).
    exists (new1 ++ new2). rewrite Heq2, Heq1, <- app_assoc. split; [done|].
    split; [|by apply Forall_app].
    rewrite length_app, filter_cons, Hlen1, Hlen2.
    by destruct (notifies e).
Qed.
Lemma dispatchAll_prefix (es : list Event) (w w' : World.t Board) :
  run es w = Ok w' → World.toasts w `prefix_of` World.toasts w'.
Proof.
  revert w. induction es as [|e es IH]; intros w Hrun; simpl in Hrun.
  - by injection Hrun as <-.
  - destruct (step e w) as [w1|err] eqn:Hstep; [|done]. simpl in Hrun.
    destruct (dispatch_toasts e w w1 Hstep) as (new & Heq & _).
    etrans; [|by apply IH]. rewrite Heq. by apply prefix_app_r.
Qed.

(** An array that nobody writes to keeps its contents: the handlers only add
    arrays. *)
Lemma dispatch_array (e : Event) (w w' : World.t Board) (ref : nat)
    (contents : list Item.t) :
  step e w = Ok w' → writesTo ref e = false →
  World.arrays w !! ref = Some contents → World.arrays w' !! ref = Some contents.
Proof.
  destruct e; simpl; intros Hstep Hwrite Href;
    try (injection Hstep as <-; simpl; first [ done | by apply lookup_app_l_Some ]).
  - unfold handleItemSetSelect in Hstep.
    destruct (newItems config packageName tagName images) as [items|err]; [|done].
    simpl in Hstep. injection Hstep as <-. simpl. by apply lookup_app_l_Some.
  - by destruct (World.toasts w !! n); injection Hstep as <-.
  - injection Hstep as <-. simpl. apply bool_decide_eq_false_1 in Hwrite.
    by rewrite list_lookup_insert_ne.
Qed.

Lemma dispatchAll_array (es : list Event) (w w' : World.t Board) (ref : nat)
    (contents : list Item.t) :
  run es w = Ok w' → Forall (λ e, writesTo ref e = false) es →
  World.arrays w !! ref = Some contents → World.arrays w' !! ref = Some contents.
Proof.
  revert w. induction es as [|e es IH]; intros w Hrun Hes Href; simpl in Hrun.
  - by injection Hrun as <-.
  - destruct (step e w) as [w1|err] eqn:Hstep; [|done]. simpl in Hrun.
    apply Forall_cons in Hes as [He Hes].
    apply (IH w1 Hrun Hes). by apply (dispatch_array e w w1).
Qed.

Lemma click_after (e : Event) (es : list Event) (w w1 w2 : World.t Board)
    (n : Toast.t Board) :
  step e w = Ok w1 → World.toasts w1 = World.toasts w ++ [n] → run es w1 = Ok w2 →
  step (ToastActionClicked (length (World.toasts w))) w2
  = Ok (World.mk (Toast.action_onClick n (World.arrays w2) (World.board w2))
          (World.arrays w2) (World.isItemCreatorOpen w2) (World.toasts w2)).
Proof.
  intros _ Heq Hrun. simpl.
  assert (Hn : World.toasts w1 !! length (World.toasts w) = Some n).
  { rewrite Heq. by rewrite lookup_app_r, Nat.sub_diag. }
  by rewrite (prefix_lookup_Some _ _ _ _ Hn (dispatchAll_prefix es w1 w2 Hrun)).
Qed.

(** X15: a later mutation never cancels an earlier undo.  After any further
    events that do not throw, clicking the notification of a reset or of a
    confirmed delete calls the undo of the reset, respectively of the delete,
    on the board as it is then; clicking the notification of a create or of a
    template selection calls the undo entry point with the ids of that batch,
    provided none of the further events wrote to the array of that batch.
    The click changes nothing but the board. *)
Theorem undo_survives (es : list Event) (w w2 : World.t Board) :
  (∀ B, run (ItemsCreated B :: es) w = Ok w2 →
     Forall (λ e, writesTo (length (World.arrays w)) e = false) es →
     step (ToastActionClicked (length (World.toasts w))) w2
     = Ok (World.mk (onUndoItemsCreate (Item.id <$> B) (World.board w2))
             (World.arrays w2) (World.isItemCreatorOpen w2) (World.toasts w2)))
  ∧ (∀ p t images, run (ItemSetSelected p t images :: es) w = Ok w2 →
       Forall (λ e, writesTo (length (World.arrays w)) e = false) es →
       step (ToastActionClicked (length (World.toasts w))) w2
       = Ok (World.mk (onUndoItemsCreate (itemIds p t (length images)) (World.board w2))
               (World.arrays w2) (World.isItemCreatorOpen w2) (World.toasts w2)))
  ∧ (run (ResetSelected :: es) w = Ok w2 →
       step (ToastActionClicked (length (World.toasts w))) w2
       = Ok (World.mk (undoReset (World.board w2))
               (World.arrays w2) (World.isItemCreatorOpen w2) (World.toasts w2)))
  ∧ (run (RemoveAllConfirmed :: es) w = Ok w2 →
       step (ToastActionClicked (length (World.toasts w))) w2
       = Ok (World.mk (undoDelete (World.board w2))
               (World.arrays w2) (World.isItemCreatorOpen w2) (World.toasts w2))).
Proof.
  assert (Hcreate : ∀ e B, step e w
            = Ok (handleCreateItems onItemsCreate onUndoItemsCreate B w) →
            run es (handleCreateItems onItemsCreate onUndoItemsCreate B w) = Ok w2 →
            Forall (λ e, writesTo (length (World.arrays w)) e = false) es →
            step (ToastActionClicked (length (World.toasts w))) w2
            = Ok (World.mk (onUndoItemsCreate (Item.id <$> B) (World.board w2))
                    (World.arrays w2) (World.isItemCreatorOpen w2) (World.toasts w2))).
  { intros e B Hstep Hrun Hes.
    rewrite (click_after e es w _ w2 _ Hstep eq_refl Hrun). simpl.
    rewrite (dispatchAll_array es _ w2 (length (World.arrays w)) B Hrun Hes); [done|].
    simpl. by rewrite lookup_app_r, Nat.sub_diag. }
  repeat split.
  - intros B Hrun Hes. by apply (Hcreate (ItemsCreated B) B).
  - intros p t images Hrun Hes. cbn [dispatchAll dispatch] in Hrun.
    unfold handleItemSetSelect in Hrun.
    destruct (newItems config p t images) as [items|err] eqn:Hitems; [|done].
    cbn [bind] in Hrun.
    rewrite <- (newItems_itemIds _ _ _ _ _ Hitems).
    apply (Hcreate (ItemSetSelected p t images) items); [|done..].
    cbn [dispatch]. unfold handleItemSetSelect. by rewrite Hitems.
  - intros Hrun.
    by apply (click_after ResetSelected es w _ w2 _ eq_refl eq_refl Hrun).
  - intros Hrun.
    by apply (click_after RemoveAllConfirmed es w _ w2 _ eq_refl eq_refl Hrun).
Qed.
End MenuProperties.


Lemma dispatchAll_toasts_witness :
  ∃ w',
    dispatchRecorded animals
      [ItemsCreated []; FromYourDevice; ResetSelected; ToastActionClicked 0]
      (World.mk [] [] false []) = Ok w'
    ∧ ∃ new, World.toasts w' = [] ++ new
             ∧ length new = 2
             ∧ Forall (λ n, Toast.action_label n = "Undo") new.
Proof.
  eexists. split; [reflexivity|].
  apply (dispatchAll_toasts animals
           (λ newItems, record (CallOnItemsCreate newItems))
           (λ ids, record (CallOnUndoItemsCreate ids))
           (record CallResetItems) (record CallDeleteAllItems)
           (record CallUndoReset) (record CallUndoDelete)
           [ItemsCreated []; FromYourDevice; ResetSelected; ToastActionClicked 0]
           (World.mk [] [] false [])).
  reflexivity.
Defined.

Lemma undo_survives_witness :
  ∃ w2,
    dispatchAll animals
      (λ newItems, record (CallOnItemsCreate newItems))
      (λ ids, record (CallOnUndoItemsCreate ids))
      (record CallResetItems) (record CallDeleteAllItems)
      (record CallUndoReset) (record CallUndoDelete)
      [ItemsCreated [Item.mk "u-1" "One" "/one.png" []];
       ResetSelected; ItemsCreated []; ArrayWritten 1 [Item.mk "u-7" "Seven" "/7.png" []];
       RemoveAllConfirmed]
      (World.mk [] [] false []) = Ok w2
    ∧ dispatch animals
        (λ newItems, record (CallOnItemsCreate newItems))
        (λ ids, record (CallOnUndoItemsCreate ids))
        (record CallResetItems) (record CallDeleteAllItems)
        (record CallUndoReset) (record CallUndoDelete)
        (ToastActionClicked 0) w2
      = Ok (World.mk (record (CallOnUndoItemsCreate ["u-1"]) (World.board w2))
              (World.arrays w2) (World.isItemCreatorOpen w2) (World.toasts w2)).
Proof.
  eexists. split; [reflexivity|].
  apply (proj1
           (undo_survives animals
              (λ newItems, record (CallOnItemsCreate newItems))
              (λ ids, record (CallOnUndoItemsCreate ids))
              (record CallResetItems) (record CallDeleteAllItems)
              (record CallUndoReset) (record CallUndoDelete)
              [ResetSelected; ItemsCreated [];
               ArrayWritten 1 [Item.mk "u-7" "Seven" "/7.png" []]; RemoveAllConfirmed]
              (World.mk [] [] false []) _)
           [Item.mk "u-1" "One" "/one.png" []]).
  - reflexivity.
  - repeat constructor.
Defined.

(** ** What the board owner sees *)

Lemma filter_isDeleteAll_record (c : Call) (log : list Call) :
  filter (λ c, Is_true (isDeleteAll c)) (record c log)
  = filter (λ c, Is_true (isDeleteAll c)) log
    ++ (if isDeleteAll c then [c] else []).
Proof.
  unfold record. rewrite filter_app. f_equal. by destruct c.
Qed.

Lemma dispatchRecorded_step (config : ImagesetConfig) (e : Event)
    (w w' : World.t (list Call)) :
  Forall spares (World.toasts w) →
  dispatchRecorded config [e] w = Ok w' →
  Forall spares (World.toasts w')
  ∧ filter (λ c, Is_true (isDeleteAll c)) (World.board w')
    = filter (λ c, Is_true (isDeleteAll c)) (World.board w)
      ++ (if isConfirm e then [CallDeleteAllItems] else []).
Proof.
  intros Hinv. unfold dispatchRecorded. cbn [dispatchAll].
  assert (Hnew : ∀ (c : Arrays → Call) title text,
            (∀ arrays, isDeleteAll (c arrays) = false) →
            Forall spares
              (World.toasts w
               ++ [Toast.mk title text "Undo" (λ arrays log, record (c arrays) log)])).
  { intros c title text Hc. apply Forall_app. split; [done|].
    constructor; [|constructor]. intros arrays log. simpl.
    by rewrite filter_isDeleteAll_record, Hc, app_nil_r. }
  destruct e; cbn [dispatch bind isConfirm]; intros Hstep;
    try (injection Hstep as <-; cbn; rewrite ?filter_isDeleteAll_record, ?app_nil_r;
         split; first [ done | by apply (Hnew (λ _, _)) ]).
  - unfold handleItemSetSelect in Hstep.
    destruct (newItems config packageName tagName images) as [items|err]; [|done].
    cbn in Hstep. injection Hstep as <-. cbn.
    rewrite filter_isDeleteAll_record, !app_nil_r. split; [|done].
    by apply (Hnew (λ arrays, CallOnUndoItemsCreate _)).
  - destruct (World.toasts w !! n) as [t|] eqn:Ht; cbn in Hstep;
      injection Hstep as <-; cbn; rewrite app_nil_r; split; try done.
    rewrite Forall_forall in Hinv. apply Hinv. by eapply list_elem_of_lookup_2.
Qed.

Lemma dispatchRecorded_cons (config : ImagesetConfig) (e : Event) (es : list Event)
    (w w' : World.t (list Call)) :
  dispatchRecorded config (e :: es) w = Ok w' →
  ∃ w1, dispatchRecorded config [e] w = Ok w1 ∧ dispatchRecorded config es w1 = Ok w'.
Proof.
  unfold dispatchRecorded. cbn [dispatchAll].
  destruct (dispatch _ _ _ _ _ _ _ e w) as [w1|err]; [|done].
  intros Hrun. by exists w1.
Qed.

Lemma handleAllRecorded_cons (config : ImagesetConfig) (e : Event) (es : list Event)
    (w : World.t (list Call)) :
  handleAllRecorded config (e :: es) w
  = match dispatchRecorded config [e] w with
    | Ok w1 => handleAllRecorded config es w1
    | Throw _ => handleAllRecorded config es w
    end.
Proof.
  unfold handleAllRecorded, dispatchRecorded. cbn [handleAll dispatchAll].
  by destruct (dispatch _ _ _ _ _ _ _ e w).
Qed.

(** Only the selection of a template throws. *)
Lemma dispatchRecorded_Throw (config : ImagesetConfig) (e : Event)
    (w : World.t (list Call)) (err : JsError) :
  dispatchRecorded config [e] w = Throw err → isConfirm e = false.
Proof.
  unfold dispatchRecorded. cbn [dispatchAll]. by destruct e.
Qed.

(** X16: in every run of events, handlers that throw included, the
    delete-all entry point of the board owner is called once for each
    confirmation of "Remove All" and never otherwise: not by opening or
    cancelling the prompt, not by any other menu entry, not by a selection
    that throws, and not by the undo of any notification fired by the
    component, whatever was written to the arrays. *)
Theorem deleteAll_only_on_confirm (config : ImagesetConfig) (es : list Event)
    (w : World.t (list Call)) :
  Forall spares (World.toasts w) →
  length (filter (λ c, Is_true (isDeleteAll c))
            (World.board (handleAllRecorded config es w)))
  = length (filter (λ c, Is_true (isDeleteAll c)) (World.board w))
    + length (filter (λ e, Is_true (isConfirm e)) es).
Proof.
  revert w. induction es as [|e es IH]; intros w Hinv.
  - simpl. lia.
  - rewrite handleAllRecorded_cons, filter_cons.
    destruct (dispatchRecorded config [e] w) as [w1|err] eqn:Hstep.
    + destruct (dispatchRecorded_step config e w w1 Hinv Hstep) as [Hinv1 Hlog].
      rewrite (IH w1 Hinv1), Hlog, length_app.
      destruct (isConfirm e); simpl; lia.
    + rewrite (IH w Hinv), (dispatchRecorded_Throw config e w err Hstep). simpl. lia.
Qed.

Lemma deleteAll_only_on_confirm_witness :
  length (filter (λ c, Is_true (isDeleteAll c))
            (World.board
               (handleAllRecorded animals
                  [RemoveAllSelected; RemoveAllCancelled; RemoveAllConfirmed;
                   ItemSetSelected "ghost" "all" ["ghost.png"];
                   ItemsCreated [Item.mk "u-1" "One" "/one.png" []];
                   ArrayWritten 0 []; ToastActionClicked 1;
                   RemoveAllSelected; RemoveAllConfirmed; ToastActionClicked 0]
                  (World.mk [] [] false []))))
  = 2.
Proof.
  apply (deleteAll_only_on_confirm animals
           [RemoveAllSelected; RemoveAllCancelled; RemoveAllConfirmed;
            ItemSetSelected "ghost" "all" ["ghost.png"];
            ItemsCreated [Item.mk "u-1" "One" "/one.png" []];
            ArrayWritten 0 []; ToastActionClicked 1;
            RemoveAllSelected; RemoveAllConfirmed; ToastActionClicked 0]
           (World.mk [] [] false [])).
  constructor.
Defined.

Lemma dispatchRecorded_call (config : ImagesetConfig) (e : Event)
    (w w' : World.t (list Call)) :
  isClick e = false →
  dispatchRecorded config [e] w = Ok w' →
  World.board w' = World.board w ++ option_list (callOf config e).
Proof.
  unfold dispatchRecorded. cbn [dispatchAll].
  destruct e; cbn [dispatch bind callOf isClick]; intros Hclick Hstep;
    try done;
    try (injection Hstep as <-; cbn; by rewrite ?app_nil_r).
  unfold handleItemSetSelect in Hstep.
  destruct (newItems config packageName tagName images) as [items|err]; [|done].
  cbn in Hstep. by injection Hstep as <-.
Qed.

(** X17: along a run without clicks on notifications that does not throw,
    the board owner receives exactly one call per creating, resetting or
    deleting event, in the order of the events, with the created batch as
    argument; opening, closing and cancelling events make no call, and no
    handler calls an undo entry point by itself. *)
Theorem dispatchRecorded_calls (config : ImagesetConfig) (es : list Event)
    (w w' : World.t (list Call)) :
  Forall (λ e, isClick e = false) es →
  dispatchRecorded config es w = Ok w' →
  World.board w' = World.board w ++ omap (callOf config) es.
Proof.
  revert w. induction es as [|e es IH]; intros w Hes Hrun.
  - injection Hrun as <-. by rewrite app_nil_r.
  - apply Forall_cons in Hes as [He Hes].
    apply dispatchRecorded_cons in Hrun as (w1 & Hstep & Hrun).
    rewrite (IH w1 Hes Hrun), (dispatchRecorded_call config e w w1 He Hstep).
    rewrite <- app_assoc. f_equal. simpl. by destruct (callOf config e).
Qed.

Lemma dispatchRecorded_calls_witness :
  ∃ w',
    dispatchRecorded animals
      [FromYourDevice; ItemsCreated []; ItemSetSelected "animals" "mammal" ["cat.png"];
       ResetSelected; RemoveAllSelected; RemoveAllConfirmed]
      (World.mk [] [] false []) = Ok w'
    ∧ World.board w'
      = [CallOnItemsCreate [];
         CallOnItemsCreate
           [Item.mk "animals-mammal-item-0" "Cat" "/images/animals/cat.png" ["mammal"]];
         CallResetItems; CallDeleteAllItems].
Proof.
  eexists. split; [reflexivity|].
  apply (dispatchRecorded_calls animals
           [FromYourDevice; ItemsCreated [];
            ItemSetSelected "animals" "mammal" ["cat.png"];
            ResetSelected; RemoveAllSelected; RemoveAllConfirmed]
           (World.mk [] [] false [])).
  - repeat constructor.
  - reflexivity.
Defined.
